(** * consistent-hash: a hash ring (consistent hashing)

    A shallow embedding of [consistent-hash.js] and the properties of its
    string hash, control point allocator, registry, sorted index and lookup. *)

From stdpp Require Import base option list gmap sorting strings.
From Stdlib Require Import ZArith Lia.

Local Open Scope Z_scope.

(** ** JavaScript 32-bit integer operators

    Numbers are modelled as [Z].  The bit operators of JavaScript coerce
    their operands to 32-bit integers and the wrap-around is written out. *)
Module JS.

(** ToUint32: reduction modulo 2^32. *)
Definition to_uint32 (x : Z) : Z := x mod 2 ^ 32.

(** ToInt32: the signed reading of the low 32 bits. *)
Definition to_int32 (x : Z) : Z :=
  let u := to_uint32 x in
  if u <? 2 ^ 31 then u else u - 2 ^ 32.

(** [a << b] *)
Definition shl (a b : Z) : Z :=
  to_int32 (Z.shiftl (to_int32 a) (Z.land (to_uint32 b) 31)).

(** [a >>> b] *)
Definition shru (a b : Z) : Z :=
  Z.shiftr (to_uint32 a) (Z.land (to_uint32 b) 31).

(** [a & b] *)
Definition and (a b : Z) : Z := to_int32 (Z.land (to_int32 a) (to_int32 b)).

(** [a ^ b] *)
Definition xor (a b : Z) : Z := to_int32 (Z.lxor (to_int32 a) (to_int32 b)).

(** A string is its sequence of UTF-16 code units, as [charCodeAt]
    returns them. *)
Definition str := list Z.

Definition code_unit (c : Z) : Prop := 0 <= c < 65536.

Definition wf_str (s : str) : Prop := Forall code_unit s.

End JS.

(** ** The string hash *)

(** The body of the [for] loop of [_hash] for the character code [c]. *)
Definition pjw_body (h c : Z) : Z :=
  let h := JS.shl h 4 + c in
  let g := JS.and h 0xf000000 in
  if g =? 0 then h
  else
    let h := JS.xor h g in
    JS.xor h (JS.shru g 24).

(** The loop [for (i=0; i<len; i++)] of [_hash] over the characters that
    are left, [h] being the accumulator. *)
Fixpoint pjw_loop (s : JS.str) (h : Z) : Z :=
  match s with
  | [] => h
  | c :: s' => pjw_loop s' (pjw_body h c)
  end.

(** [_hash: function _pjwHash(s)] *)
Definition _hash (s : JS.str) : Z := pjw_loop s 0.

(** The rolling scheme in the words of the specification, on plain
    integers: shift the accumulator left by four bits, in a 32-bit word,
    add the character code, and when bits 24 to 27 are set, xor them out
    and xor the same value shifted right by 24 into the low byte. *)
Definition rolling_step (h c : Z) : Z :=
  let h1 := Z.land (Z.shiftl h 4) (2 ^ 32 - 1) + c in
  let g := Z.land h1 (Z.shiftl 15 24) in
  if g =? 0 then h1 else Z.lxor (Z.lxor h1 g) (Z.shiftr g 24).

Definition rolling_hash (s : JS.str) : Z := fold_left rolling_step s 0.

(** The code units of a string of 8-bit characters. *)
Definition of_ascii (s : string) : JS.str :=
  (fun a => Z.of_nat (Ascii.nat_of_ascii a)) <$> String.list_ascii_of_string s.

(** The accumulator of the hash stays below 2^29 with bits 24 to 27 clear. *)
Definition hash_inv (h : Z) : Prop :=
  0 <= h < 2 ^ 29 /\ Z.land h 0xf000000 = 0.

(** ** Outcomes of a call

    A call returns, throws a [TypeError] (a property read on [undefined]),
    or, in this embedding, uses up the fuel given to one of its loops. *)
Inductive result (A : Type) : Type :=
  | Ok (a : A)
  | TypeError
  | OutOfFuel.
Arguments Ok {A} a.
Arguments TypeError {A}.
Arguments OutOfFuel {A}.

#[global] Instance result_ret : MRet result := fun A a => Ok a.
#[global] Instance result_bind : MBind result := fun A B f m =>
  match m with
  | Ok a => f a
  | TypeError => TypeError
  | OutOfFuel => OutOfFuel
  end.
#[global] Instance result_fmap : FMap result := fun A B f m =>
  match m with
  | Ok a => Ok (f a)
  | TypeError => TypeError
  | OutOfFuel => OutOfFuel
  end.

(** ** Arrays of numbers *)

(** [array[i]] for a number [i]; [None] is [undefined]. *)
Definition aget (array : list Z) (i : Z) : option Z :=
  if i <? 0 then None else array !! Z.to_nat i.

(** [x !== undefined] *)
Definition defined {A} (x : option A) : bool :=
  match x with Some _ => true | None => false end.

(** [x < key] and [x >= key] where [x] may be [undefined]: a comparison
    with [undefined] is false. *)
Definition js_lt (x : option Z) (key : Z) : bool :=
  match x with Some v => v <? key | None => false end.

Definition js_ge (x : option Z) (key : Z) : bool :=
  match x with Some v => v >=? key | None => false end.

(** [_copy: function _copy( o )] on an array: a new array with the
    elements of [o]. *)
Fixpoint _copy (o : list Z) : list Z :=
  match o with
  | [] => []
  | x :: o' => x :: _copy o'
  end.

(** [a[ix] = a[a.length - 1]; a.length -= 1] for [ix] within the array. *)
Definition swap_remove {A} (ix : nat) (a : list A) : list A :=
  match last a with
  | Some x => take (length a - 1) (<[ix := x]> a)
  | None => a
  end.

(** ** Binary search of the sorted index *)

Definition gap : Z := 25.

(** The first loop of [_absearch]: bisect while [j - i > gap]. *)
Fixpoint bisect (fuel : nat) (array : list Z) (key i j : Z) : result (Z * Z) :=
  if j - i >? gap then
    match fuel with
    | O => OutOfFuel
    | S fuel' =>
        let mid := JS.shru (i + j) 1 in
        if js_lt (aget array mid) key
        then bisect fuel' array key (mid + 1) j
        else bisect fuel' array key i mid
    end
  else Ok (i, j).

(** The second loop of [_absearch]: [for ( ; i<len; i++)], with [steps]
    the number of rounds left, [len - i]. *)
Fixpoint scan (steps : nat) (array : list Z) (key i : Z) : option Z :=
  match steps with
  | O => None
  | S steps' =>
      if js_ge (aget array i) key then Some i
      else scan steps' array key (i + 1)
  end.

(** [_absearch: function _absearch( array, key )] *)
Definition _absearch (array : list Z) (key : Z) : result Z :=
  let len := Z.of_nat (length array) in
  '(i, j) ← bisect (length array) array key 0 (len - 1);
  match scan (Z.to_nat (len - i)) array key i with
  | Some i => Ok i
  | None => Ok (if len =? 0 then -1 else 0)
  end.

(** [i] is the smallest index of [a] whose element is at least [h]. *)
Definition first_ge (a : list Z) (h : Z) (i : nat) : Prop :=
  (exists x, a !! i = Some x /\ h <= x) /\
  forall (j : nat) y, (j < i)%nat -> a !! j = Some y -> y < h.

(** Every element before index [i] is smaller than [key]. *)
Definition below_before (a : list Z) (key : Z) (i : Z) : Prop :=
  forall (k : nat) y, Z.of_nat k < i -> a !! k = Some y -> y < key.

(** The index that the search is to return, found by a scan from the
    left: the first element that is at least [h], else 0, or -1 on the
    empty array. *)
Definition locate (a : list Z) (h : Z) : Z :=
  match list_find (fun x => h <= x) a with
  | Some (i, _) => Z.of_nat i
  | None => if decide (a = []) then -1 else 0
  end.

(** ** The control point allocator *)

(** The loop condition of the [do ... while], without the attempt count:
    [this._keyMap[key] !== undefined || points[key] !== undefined].  The
    key [None] of the map is the property name ["undefined"]. *)
Definition collides {V} (keyMap : gmap (option Z) V) (points : list Z) (key : Z) : bool :=
  defined (keyMap !! Some key) || defined (aget points key).

(** The [do ... while] loop for one point.  [random pos] is the value of
    [Math.random() * this._range >>> 0] at its [pos]-th evaluation in the
    call; the result is the key, the next position and the attempt count. *)
Fixpoint draw {V} (fuel : nat) (keyMap : gmap (option Z) V) (points : list Z)
    (random : nat → Z) (pos attemptCount : nat) : result (Z * nat * nat) :=
  let key := random pos in
  if collides keyMap points key then
    let attemptCount := S attemptCount in
    if (attemptCount <? 10)%nat then
      match fuel with
      | O => OutOfFuel
      | S fuel' => draw fuel' keyMap points random (S pos) attemptCount
      end
    else Ok (key, S pos, attemptCount)
  else Ok (key, S pos, attemptCount).

(** The [for] loop of [_makeControlPoints] with [n] points still to
    allocate; [points] holds the slots filled so far, the rest of
    [new Array(n)] being holes. *)
Fixpoint allocate {V} (n : nat) (keyMap : gmap (option Z) V) (random : nat → Z)
    (pos attemptCount : nat) (points : list Z) : result (list Z * nat * nat) :=
  match n with
  | O => Ok (points, pos, attemptCount)
  | S n' =>
      '(key, pos, attemptCount) ← draw 10 keyMap points random pos attemptCount;
      allocate n' keyMap random pos attemptCount (points ++ [key])
  end.

(** ** The ring

    A node is any value but [undefined]; [indexOf] compares nodes by
    identity.  A weight is a natural number and a control point an
    integer.  The map from points to nodes is keyed by [Some p] for the
    point [p] and by [None] for the property name ["undefined"]. *)
Section ring.
Context {node : Type} `{EqDecision node}.

(** What [get] returns. *)
Inductive value : Type :=
  | Null
  | Undefined
  | Node (nd : node).

Record ring : Type := Ring {
  _nodes : list node;
  _nodeKeys : list (list Z);
  _keyMap : gmap (option Z) node;
  _keys : option (list Z);
  nodeCount : Z;
  keyCount : Z;
  _range : Z
}.

(** [function ConsistentHash( options )], [range] being [options.range]:
    a falsy range leaves the default of the prototype.  The table
    [_flip8Map] that the constructor fills is not read by [_hash]. *)
Definition ConsistentHash (range : option Z) : ring :=
  {| _nodes := []; _nodeKeys := []; _keyMap := ∅; _keys := None;
     nodeCount := 0; keyCount := 0;
     _range := match range with
               | Some r => if r =? 0 then 1009 else r
               | None => 1009
               end |}.

(** [_makeControlPoints: function _makeControlPoints( n )] *)
Definition _makeControlPoints (r : ring) (n : nat) (random : nat → Z)
    : result (list Z) :=
  '(points, _, _) ← allocate n (_keyMap r) random 0 0 [];
  Ok points.

(** [for (i=0; i<n; i++) this._keyMap[points[i]] = node], with [n] rounds
    left from index [i]; [points[i]] out of the array is [undefined]. *)
Fixpoint map_points (n i : nat) (points : list Z) (nd : node)
    (keyMap : gmap (option Z) node) : gmap (option Z) node :=
  match n with
  | O => keyMap
  | S n' => map_points n' (S i) points nd (<[points !! i := nd]> keyMap)
  end.

(** [n || 1]: a weight that is left out or zero counts as one. *)
Definition or_1 (n : option nat) : nat :=
  match n with
  | Some (S k) => S k
  | _ => 1%nat
  end.

(** [add: function add( node, n, points )]; [n] is [None] when the
    argument is left out and [points] is [Some] when it is an array. *)
Definition add (r : ring) (nd : node) (n : option nat)
    (points : option (list Z)) (random : nat → Z) : result ring :=
  let n := or_1 n in
  points ← match points with
           | Some p => Ok (_copy p)
           | None => _makeControlPoints r n random
           end;
  Ok {| _nodes := _nodes r ++ [nd];
        _nodeKeys := _nodeKeys r ++ [points];
        _keyMap := map_points n 0 points nd (_keyMap r);
        _keys := None;
        nodeCount := nodeCount r + 1;
        keyCount := keyCount r + Z.of_nat n;
        _range := _range r |}.

(** [this._nodes.indexOf(node)] *)
Fixpoint indexOf (l : list node) (nd : node) : option nat :=
  match l with
  | [] => None
  | x :: l' => if decide (x = nd) then Some O else S <$> indexOf l' nd
  end.

(** The body of the [while] loop of [remove] at index [ix]. *)
Definition remove_at (r : ring) (ix : nat) : result ring :=
  match _nodeKeys r !! ix with
  | None => TypeError
  | Some keys =>
      Ok {| _nodes := swap_remove ix (_nodes r);
            _nodeKeys := swap_remove ix (_nodeKeys r);
            _keyMap := _keyMap r;
            _keys := None;
            nodeCount := nodeCount r - 1;
            keyCount := keyCount r - Z.of_nat (length keys);
            _range := _range r |}
  end.

Fixpoint remove_loop (fuel : nat) (r : ring) (nd : node) : result ring :=
  match indexOf (_nodes r) nd with
  | None => Ok r
  | Some ix =>
      match fuel with
      | O => OutOfFuel
      | S fuel' => r' ← remove_at r ix; remove_loop fuel' r' nd
      end
  end.

(** [remove: function remove( node )] *)
Definition remove (r : ring) (nd : node) : result ring :=
  remove_loop (length (_nodes r)) r nd.

(** [_buildKeys: function _buildKeys( )]: flatten and sort ascending. *)
Definition _buildKeys (r : ring) : ring :=
  {| _nodes := _nodes r; _nodeKeys := _nodeKeys r; _keyMap := _keyMap r;
     _keys := Some (merge_sort Z.le (concat (_nodeKeys r)));
     nodeCount := nodeCount r; keyCount := keyCount r; _range := _range r |}.

(** [this._keyMap[k]] for a key [k] that may be [undefined]. *)
Definition keyMap_get (keyMap : gmap (option Z) node) (k : option Z) : value :=
  match keyMap !! k with
  | Some nd => Node nd
  | None => Undefined
  end.

(** [get: function get( name )]; the ring is returned with its sorted
    index built.  [h % this._range] is [Z.rem]: the hash is not negative
    and the range of a ring made by [ConsistentHash] is not zero. *)
Definition get (r : ring) (name : JS.str) : result (ring * value) :=
  let r := match _keys r with None => _buildKeys r | Some _ => r end in
  if keyCount r =? 0 then Ok (r, Null)
  else
    let h := _hash name in
    let h := Z.rem h (_range r) in
    let keys := default [] (_keys r) in
    index ← _absearch keys h;
    Ok (r, keyMap_get (_keyMap r) (aget keys index)).

(** The registrations of a ring: each node with its control points. *)
Definition registrations (r : ring) : list (node * list Z) :=
  zip (_nodes r) (_nodeKeys r).

(** The parallel lists have the same length. *)
Definition parallel (r : ring) : Prop :=
  length (_nodes r) = length (_nodeKeys r).

(** The number of control points of all registrations. *)
Definition points_total (r : ring) : nat :=
  sum_list_with length (_nodeKeys r).

(** The registrations of [nd] and the other ones. *)
Definition of_node (nd : node) (p : node * list Z) : Prop := p.1 = nd.
Definition not_of_node (nd : node) (p : node * list Z) : Prop := p.1 ≠ nd.

#[global] Instance of_node_dec nd p : Decision (of_node nd p) :=
  decide (p.1 = nd).
#[global] Instance not_of_node_dec nd p : Decision (not_of_node nd p) :=
  decide (p.1 ≠ nd).

(** The cached sorted index, when present, is the sorted control points. *)
Definition index_fresh (r : ring) : Prop :=
  _keys r = None ∨ _keys r = Some (merge_sort Z.le (concat (_nodeKeys r))).

(** The ring with its sorted index built when it was stale, as [get]
    leaves it. *)
Definition with_index (r : ring) : ring :=
  match _keys r with None => _buildKeys r | Some _ => r end.

(** The public operations. *)
Inductive op : Type :=
  | Add (nd : node) (n : option nat) (points : option (list Z)) (random : nat → Z)
  | Remove (nd : node)
  | Get (name : JS.str).

Definition step (r : ring) (o : op) : result ring :=
  match o with
  | Add nd n points random => add r nd n points random
  | Remove nd => remove r nd
  | Get name => fst <$> get r name
  end.

(** The rings that a sequence of operations builds from a new one. *)
Inductive reachable (range : option Z) : ring → Prop :=
  | reachable_new : reachable range (ConsistentHash range)
  | reachable_step r o r' :
      reachable range r → step r o = Ok r' → reachable range r'.

(** An [add] with explicit points whose weight is their number. *)
Definition matched (o : op) : Prop :=
  match o with
  | Add _ n (Some p) _ => length p = or_1 n
  | _ => True
  end.

(** Every registered control point has an entry in the map. *)
Definition mapped (r : ring) : Prop :=
  ∀ p, p ∈ concat (_nodeKeys r) → is_Some (_keyMap r !! Some p).

(** A sequence of operations, from left to right. *)
Fixpoint run (r : ring) (ops : list op) : result ring :=
  match ops with
  | [] => Ok r
  | o :: ops' => r' ← step r o; run r' ops'
  end.

End ring.

Arguments value : clear implicits.
Arguments ring : clear implicits.
Arguments op : clear implicits.

(** ** Rings and inputs of the examples *)

(** Forty control points in ascending order, 0, 3, 6, ..., 117. *)
Definition forty_points : list Z := (fun i => 3 * Z.of_nat i) <$> seq 0 40.

(** A ring of range 100 with the points 10, 50 and 90 of the nodes A, B
    and C, one registration each. *)
Definition ring_abc : result (ring string) :=
  run (ConsistentHash (Some 100))
    [Add "A"%string (Some 1%nat) (Some [10]) (fun _ => 0);
     Add "B"%string (Some 1%nat) (Some [50]) (fun _ => 0);
     Add "C"%string (Some 1%nat) (Some [90]) (fun _ => 0)].

(** A ring on which X is registered twice, at 5 and at 500, and Y once. *)
Definition ring_xyx : ring string :=
  {| _nodes := ["X"; "Y"; "X"]%string;
     _nodeKeys := [[5]; [7; 8]; [500]];
     _keyMap := <[Some 500 := "X"%string]> (<[Some 8 := "Y"%string]>
                  (<[Some 7 := "Y"%string]> (<[Some 5 := "X"%string]> ∅)));
     _keys := Some [5; 7; 8; 500];
     nodeCount := 3; keyCount := 4; _range := 1009 |}.

(** One registration of A with three explicit points and no weight. *)
Definition ring_three_points : result (ring string) :=
  run (ConsistentHash (Some 100))
    [Add "A"%string None (Some [10; 50; 90]) (fun _ => 0)].

(** A and B registered on the same point, then B removed. *)
Definition ring_stale : result (ring string) :=
  run (ConsistentHash None)
    [Add "A"%string (Some 1%nat) (Some [10]) (fun _ => 0);
     Add "B"%string (Some 1%nat) (Some [10]) (fun _ => 0);
     Remove "B"%string].

(** The rolling scheme with the shift on unbounded integers. *)
Definition rolling_step_unbounded (h c : Z) : Z :=
  let h1 := Z.shiftl h 4 + c in
  let g := Z.land h1 (Z.shiftl 15 24) in
  if g =? 0 then h1 else Z.lxor (Z.lxor h1 g) (Z.shiftr g 24).

(** ** The other functions of the file *)

(** [a | b] *)
Definition js_or (a b : Z) : Z :=
  JS.to_int32 (Z.lor (JS.to_int32 a) (JS.to_int32 b)).

(** [~a] *)
Definition js_not (a : Z) : Z := JS.to_int32 (Z.lnot (JS.to_int32 a)).

(** The loop of [function flipit(b1)] with [steps] rounds left at [k]. *)
Fixpoint flipit_loop (steps : nat) (b1 k b2 : Z) : Z :=
  match steps with
  | O => b2
  | S steps' =>
      let bit := JS.shl 1 k in
      let b2 := if JS.and b1 bit =? 0 then b2
                else js_or b2 (JS.shl 1 (7 - k)) in
      flipit_loop steps' b1 (k + 1) b2
  end.

(** [function flipit(b1)] of the constructor. *)
Definition flipit (b1 : Z) : Z := flipit_loop 8 b1 0 0.

(** [_flip8Map: new Array(256)] of the prototype, which all rings share:
    256 holes. *)
Definition flip8_new : list (option Z) := replicate 256 None.

(** [for (i=0; i<256; i++) this._flip8Map[i] = flipit(i)] with [steps]
    rounds left at [i]. *)
Fixpoint flip8_fill (steps i : nat) (tbl : list (option Z)) : list (option Z) :=
  match steps with
  | O => tbl
  | S steps' =>
      flip8_fill steps' (S i) (<[i := Some (flipit (Z.of_nat i))]> tbl)
  end.

(** What the constructor does to the table:
    [if (this._flip8Map[1] != 0x80)] it fills it. *)
Definition flip8_init (tbl : list (option Z)) : list (option Z) :=
  if decide (tbl !! 1%nat = Some (Some 0x80)) then tbl
  else flip8_fill 256 0 tbl.

(** [_flip4Map] *)
Definition _flip4Map : list Z :=
  [0; 8; 4; 12; 2; 10; 6; 14; 1; 9; 5; 13; 3; 11; 7; 15].

(** [flip8[x]] inside a bit operation: [undefined] counts as 0. *)
Definition flip8_get (flip8 : list (option Z)) (x : Z) : Z :=
  match (if x <? 0 then None else flip8 !! Z.to_nat x) with
  | Some (Some v) => v
  | _ => 0
  end.

(** The body of the loop of [_hash2] for the character code [c]. *)
Definition crc_body (h c : Z) : Z :=
  let g := JS.and h 0xf80000 in
  JS.xor (js_or (JS.shl (JS.and h (js_not 0xf80000)) 5) (JS.shru g 19)) c.

(** The loop [for (var i=0; i<len; i++)] of [_hash2]: the body runs on
    each character in turn, [h] being the accumulator. *)
Definition crc_loop (s : JS.str) (h : Z) : Z := fold_left crc_body s h.

(** The last statement of [_hash2]: the three bytes of [h] with their
    bits flipped, in the opposite order. *)
Definition flip24 (flip8 : list (option Z)) (h : Z) : Z :=
  js_or (js_or (JS.shl (flip8_get flip8 (JS.and h 0xff)) 16)
               (JS.shl (flip8_get flip8 (JS.and (JS.shru h 8) 0xff)) 8))
        (flip8_get flip8 (JS.and (JS.shru h 16) 0xff)).

(** [_hash2: function _crcHash( s )], [flip8] being [this._flip8Map]. *)
Definition _hash2 (flip8 : list (option Z)) (s : JS.str) : Z :=
  flip24 flip8 (crc_loop s 0).

(** The 24-bit rotation to the left by five bits. *)
Definition rotl24_5 (h : Z) : Z := (h * 32) mod 2 ^ 24 + h / 2 ^ 19.

(** [_copy: function _copy( o )] on an object that is not an array:
    [for (k in o) ret[k] = o[k]]. *)
Definition _copy_object {V} (o : gmap string V) : gmap string V :=
  map_fold (fun k v ret => <[k := v]> ret) ∅ o.

(** The point of a sorted index that the hash [h] resolves to: the value
    at the index that the scan from the left gives. *)
Definition successor (keys : list Z) (h v : Z) : Prop :=
  v ∈ keys ∧
  ((h <= v ∧ ∀ x, x ∈ keys → h <= x → v <= x) ∨
   ((∀ x, x ∈ keys → x < h) ∧ ∀ x, x ∈ keys → v <= x)).

Section ring_more.
Context {node : Type} `{EqDecision node}.

(** What [locateNext] returns: [null] or an array of nodes. *)
Inductive located : Type :=
  | NoNode
  | Nodes (l : list node).

(** [locateNext: function locateNext( node, offset )] *)
Definition locateNext (r : ring node) (nd : node) (offset : Z) : located :=
  match indexOf (_nodes r) nd with
  | None => NoNode
  | Some ix => Nodes []
  end.

(** Every registered control point maps to the node of its registration. *)
Definition owned (r : ring node) : Prop :=
  ∀ nd ks p, (nd, ks) ∈ registrations r → p ∈ ks →
    _keyMap r !! Some p = Some nd.

End ring_more.

Arguments located : clear implicits.

(** Forty numbers in no order. *)
Definition forty_unsorted : list Z :=
  (fun i => (Z.of_nat i * 37) mod 41) <$> seq 0 40.

(** A ring of three nodes with allocated points, the draws being
    17, 34, 51, ... *)
Definition ring_drawn : result (ring string) :=
  run (ConsistentHash None)
    [Add "A"%string (Some 2%nat) None (fun i => 17 * (1 + Z.of_nat i));
     Add "B"%string (Some 3%nat) None (fun i => 100 + 17 * (1 + Z.of_nat i));
     Add "C"%string None None (fun i => 500 + Z.of_nat i)].

(** X registered at 5, Y at 7 and 8, X again at 500, by the operations. *)
Definition ring_xyx_run : result (ring string) :=
  run (ConsistentHash None)
    [Add "X"%string (Some 1%nat) (Some [5]) (fun _ => 0);
     Add "Y"%string (Some 2%nat) (Some [7; 8]) (fun _ => 0);
     Add "X"%string (Some 1%nat) (Some [500]) (fun _ => 0);
     Get (of_ascii "key");
     Remove "Y"%string].

(** * Properties *)
(** ** Facts on bits and 32-bit coercions *)

Lemma to_uint32_small x : 0 <= x < 2 ^ 32 -> JS.to_uint32 x = x.
Proof. intros H. unfold JS.to_uint32. by apply Z.mod_small. Qed.

Lemma to_int32_small x : 0 <= x < 2 ^ 31 -> JS.to_int32 x = x.
Proof.
  intros H. unfold JS.to_int32. rewrite to_uint32_small by lia.
  destruct (Z.ltb_spec x (2 ^ 31)); lia.
Qed.

Lemma testbit_above x k n :
  0 <= x < 2 ^ k -> 0 <= k <= n -> Z.testbit x n = false.
Proof.
  intros Hx Hk. rewrite <- (Z.mod_small x (2 ^ k)) by lia.
  apply Z.mod_pow2_bits_high. lia.
Qed.

Lemma below_pow2_of_bits x k :
  0 <= k -> 0 <= x -> (forall n, k <= n -> Z.testbit x n = false) -> x < 2 ^ k.
Proof.
  intros Hk Hx Hbits.
  destruct (Z.eq_dec x 0) as [->|Hne]; [apply Z.pow_pos_nonneg; lia|].
  apply Z.log2_lt_pow2; [lia|].
  destruct (Z.lt_ge_cases (Z.log2 x) k) as [|Hge]; [done|].
  specialize (Hbits (Z.log2 x) Hge). rewrite Z.bit_log2 in Hbits by lia. done.
Qed.

(** The mask [0xf000000] selects bits 24 to 27. *)
Lemma mask_bits n :
  Z.testbit 0xf000000 n = (24 <=? n) && (n <? 28).
Proof.
  change 0xf000000 with (Z.shiftl 15 24).
  destruct (Z.leb_spec 24 n) as [H24|H24]; simpl.
  - rewrite Z.shiftl_spec by lia.
    destruct (Z.ltb_spec n 28) as [H28|H28].
    + assert (Hc : n - 24 = 0 \/ n - 24 = 1 \/ n - 24 = 2 \/ n - 24 = 3) by lia.
      destruct Hc as [-> | [-> | [-> | ->]]]; reflexivity.
    + apply (testbit_above 15 4); lia.
  - destruct (Z.lt_ge_cases n 0) as [Hneg|Hpos]; [by apply Z.testbit_neg_r|].
    by apply Z.shiftl_spec_low.
Qed.

Lemma hash_inv_bits h n : hash_inv h -> 24 <= n < 28 -> Z.testbit h n = false.
Proof.
  intros [_ Hm] Hn.
  assert (Hb : Z.testbit (Z.land h 0xf000000) n = false) by (rewrite Hm; apply Z.bits_0).
  rewrite Z.land_spec, mask_bits in Hb.
  destruct (Z.leb_spec 24 n), (Z.ltb_spec n 28); try lia.
  by rewrite andb_true_r in Hb.
Qed.

Lemma shl4_bound h :
  hash_inv h -> 0 <= Z.land (Z.shiftl h 4) (2 ^ 32 - 1) < 2 ^ 28.
Proof.
  intros Hinv. pose proof Hinv as [[Hlo Hhi] _].
  assert (Hnn : 0 <= Z.land (Z.shiftl h 4) (2 ^ 32 - 1)).
  { apply Z.land_nonneg. right. lia. }
  split; [done|].
  apply below_pow2_of_bits; [lia|done|].
  intros n Hn. rewrite Z.land_spec.
  destruct (Z.lt_ge_cases n 32) as [Hlt|Hge].
  - rewrite Z.shiftl_spec by lia.
    rewrite (hash_inv_bits h (n - 4)) by (done || lia). done.
  - change (2 ^ 32 - 1) with (Z.ones 32).
    rewrite Z.ones_spec_high by lia. apply andb_false_r.
Qed.

Lemma shl4_js h :
  hash_inv h -> JS.shl h 4 = Z.land (Z.shiftl h 4) (2 ^ 32 - 1).
Proof.
  intros Hinv. pose proof (shl4_bound h Hinv) as Hb.
  destruct Hinv as [[Hlo Hhi] _].
  unfold JS.shl. rewrite (to_int32_small h) by lia.
  change (Z.land (JS.to_uint32 4) 31) with 4.
  unfold JS.to_int32, JS.to_uint32.
  change (2 ^ 32 - 1) with (Z.ones 32) in *.
  rewrite <- Z.land_ones by lia.
  destruct (Z.ltb_spec (Z.land (Z.shiftl h 4) (Z.ones 32)) (2 ^ 31)); lia.
Qed.

Lemma land_below a b k :
  0 <= k -> 0 <= a < 2 ^ k -> 0 <= Z.land a b < 2 ^ k.
Proof.
  intros Hk Ha.
  assert (Hnn : 0 <= Z.land a b) by (apply Z.land_nonneg; left; lia).
  split; [done|]. apply below_pow2_of_bits; [done..|].
  intros n Hn. by rewrite Z.land_spec, (testbit_above a k n).
Qed.

Lemma lxor_below a b k :
  0 <= k -> 0 <= a < 2 ^ k -> 0 <= b < 2 ^ k -> 0 <= Z.lxor a b < 2 ^ k.
Proof.
  intros Hk Ha Hb.
  assert (Hnn : 0 <= Z.lxor a b) by (apply Z.lxor_nonneg; lia).
  split; [done|]. apply below_pow2_of_bits; [done..|].
  intros n Hn.
  by rewrite Z.lxor_spec, (testbit_above a k n), (testbit_above b k n).
Qed.

Lemma shiftr_below a n k :
  0 <= n -> 0 <= a < 2 ^ k -> 0 <= Z.shiftr a n < 2 ^ k.
Proof.
  intros Hn Ha. rewrite Z.shiftr_div_pow2 by done.
  assert (0 < 2 ^ n) by (apply Z.pow_pos_nonneg; lia).
  split; [apply Z.div_pos; lia|].
  apply Z.le_lt_trans with a; [|lia].
  apply Z.div_le_upper_bound; [done|]. nia.
Qed.

(** One round of the loop agrees with the rolling scheme and keeps the
    accumulator in shape. *)
Lemma pjw_body_rolling h c :
  hash_inv h -> JS.code_unit c ->
  pjw_body h c = rolling_step h c /\ hash_inv (pjw_body h c).
Proof.
  intros Hinv Hc. unfold JS.code_unit in Hc.
  pose proof (shl4_bound h Hinv) as Hx.
  unfold pjw_body, rolling_step. rewrite (shl4_js h Hinv).
  set (h1 := Z.land (Z.shiftl h 4) (2 ^ 32 - 1) + c).
  assert (Hh1 : 0 <= h1 < 2 ^ 29) by (unfold h1; lia).
  change (Z.shiftl 15 24) with 0xf000000.
  pose proof (land_below h1 0xf000000 29 ltac:(lia) Hh1) as Hg.
  assert (Hand : JS.and h1 0xf000000 = Z.land h1 0xf000000).
  { unfold JS.and. rewrite (to_int32_small h1) by lia.
    change (JS.to_int32 0xf000000) with 0xf000000.
    apply to_int32_small. lia. }
  rewrite Hand. set (g := Z.land h1 0xf000000) in *.
  destruct (Z.eqb_spec g 0) as [Hg0|Hg0].
  - split; [done|]. split; done.
  - pose proof (lxor_below h1 g 29 ltac:(lia) Hh1 Hg) as Hx1.
    pose proof (shiftr_below g 24 29 ltac:(lia) Hg) as Hs.
    pose proof (lxor_below _ _ 29 ltac:(lia) Hx1 Hs) as Hx2.
    assert (Hxor1 : JS.xor h1 g = Z.lxor h1 g).
    { unfold JS.xor.
      rewrite (to_int32_small h1), (to_int32_small g) by lia.
      apply to_int32_small. lia. }
    assert (Hshr : JS.shru g 24 = Z.shiftr g 24).
    { unfold JS.shru. rewrite to_uint32_small by lia. done. }
    assert (Hxor2 : JS.xor (Z.lxor h1 g) (Z.shiftr g 24)
                    = Z.lxor (Z.lxor h1 g) (Z.shiftr g 24)).
    { unfold JS.xor.
      rewrite (to_int32_small (Z.lxor h1 g)) by lia.
      rewrite (to_int32_small (Z.shiftr g 24)) by lia.
      apply to_int32_small. lia. }
    rewrite Hxor1, Hshr, Hxor2. split; [done|]. split; [done|].
    apply Z.bits_inj'. intros n Hn.
    rewrite Z.bits_0, Z.land_spec, mask_bits, !Z.lxor_spec.
    destruct (Z.leb_spec 24 n) as [H24|H24]; [|apply andb_false_r].
    destruct (Z.ltb_spec n 28) as [H28|H28]; [|apply andb_false_r].
    rewrite Z.shiftr_spec by lia. unfold g.
    rewrite !Z.land_spec, !mask_bits.
    destruct (Z.leb_spec 24 n), (Z.ltb_spec n 28); try lia.
    destruct (Z.ltb_spec (n + 24) 28); try lia.
    by destruct (Z.testbit h1 n), (Z.testbit h1 (n + 24)), (24 <=? n + 24).
Qed.

Lemma hash_inv_0 : hash_inv 0.
Proof. split; [lia|done]. Qed.

Lemma pjw_loop_rolling s : forall h,
  JS.wf_str s -> hash_inv h ->
  pjw_loop s h = fold_left rolling_step s h /\ hash_inv (pjw_loop s h).
Proof.
  induction s as [|c s IH]; intros h Hwf Hinv; [done|].
  apply Forall_cons in Hwf as [Hc Hwf].
  destruct (pjw_body_rolling h c Hinv Hc) as [Heq Hinv'].
  simpl. rewrite <- Heq. by apply IH.
Qed.

(** ** The binary search *)

Lemma sorted_lookup_le (a : list Z) : StronglySorted Z.le a ->
  forall (i j : nat) x y,
    a !! i = Some x -> a !! j = Some y -> (i <= j)%nat -> x <= y.
Proof.
  induction 1 as [|z a Hs IH Hall]; intros i j x y Hi Hj Hij; [done|].
  destruct i as [|i], j as [|j]; simpl in *; simplify_eq; try lia.
  - rewrite Forall_forall in Hall. apply Hall.
    by apply list_elem_of_lookup_2 in Hj.
  - apply (IH i j); [done..|lia].
Qed.

Lemma aget_lookup (a : list Z) (i : Z) :
  0 <= i -> aget a i = a !! Z.to_nat i.
Proof. intros Hi. unfold aget. destruct (Z.ltb_spec i 0); [lia|done]. Qed.

Lemma shru_half (x : Z) : 0 <= x < 2 ^ 32 -> JS.shru x 1 = x / 2.
Proof.
  intros Hx. unfold JS.shru. rewrite to_uint32_small by done.
  change (Z.land (JS.to_uint32 1) 31) with 1.
  by rewrite Z.shiftr_div_pow2.
Qed.

Lemma bisect_spec (a : list Z) (key : Z) :
  StronglySorted Z.le a ->
  Z.of_nat (length a) <= 2 ^ 31 ->
  forall (fuel : nat) (i j : Z),
    0 <= i -> j < Z.of_nat (length a) -> j - i <= Z.of_nat fuel ->
    below_before a key i ->
    exists i' j',
      bisect fuel a key i j = Ok (i', j') /\ 0 <= i' <= Z.max i j /\
      j' - i' <= gap /\ below_before a key i'.
Proof.
  intros Hs Hlen fuel.
  induction fuel as [|fuel IH]; intros i j Hi Hj Hfuel Hbelow; simpl.
  - destruct (Z.gtb_spec (j - i) gap) as [Hgt|Hle]; [unfold gap in Hgt; lia|].
    exists i, j. repeat split; [done|lia..|done].
  - destruct (Z.gtb_spec (j - i) gap) as [Hgt|Hle].
    2:{ exists i, j. repeat split; [done|lia..|done]. }
    unfold gap in Hgt.
    rewrite shru_half by lia.
    assert (Hmid : i <= (i + j) / 2 < j) by (split; Z.div_mod_to_equations; lia).
    set (mid := (i + j) / 2) in *.
    rewrite aget_lookup by lia.
    destruct (lookup_lt_is_Some_2 a (Z.to_nat mid)) as [x Hx]; [lia|].
    rewrite Hx. simpl.
    destruct (Z.ltb_spec x key) as [Hlt|Hge].
    + destruct (IH (mid + 1) j) as (i' & j' & Hb & Hi' & Hgap & Hbel); [lia..| |].
      { intros k y Hk Hy.
        pose proof (sorted_lookup_le a Hs k (Z.to_nat mid) y x Hy Hx). lia. }
      exists i', j'. repeat split; [done|lia..|done].
    + destruct (IH i mid) as (i' & j' & Hb & Hi' & Hgap & Hbel); [lia..|done|].
      exists i', j'. repeat split; [done|lia..|done].
Qed.

Lemma scan_spec (a : list Z) (key : Z) (steps : nat) : forall (i : Z),
  0 <= i -> Z.of_nat steps = Z.of_nat (length a) - i ->
  below_before a key i ->
  match scan steps a key i with
  | Some i' =>
      0 <= i' /\ (exists x, a !! Z.to_nat i' = Some x /\ key <= x) /\
      below_before a key i'
  | None => below_before a key (Z.of_nat (length a))
  end.
Proof.
  induction steps as [|steps IH]; intros i Hi Hsteps Hbelow; simpl.
  - by replace (Z.of_nat (length a)) with i by lia.
  - rewrite aget_lookup by done.
    destruct (lookup_lt_is_Some_2 a (Z.to_nat i)) as [x Hx]; [lia|].
    rewrite Hx. simpl.
    destruct (Z.geb_spec x key) as [Hge|Hlt].
    + split; [done|]. split; [|done]. exists x. split; [done|lia].
    + apply IH; [lia..|].
      intros k y Hk Hy.
      destruct (Z.eq_dec (Z.of_nat k) i) as [<-|Hne].
      * rewrite Nat2Z.id in Hx. by simplify_eq.
      * apply (Hbelow k); [lia|done].
Qed.

(** The search agrees with the scan from the left. *)
Lemma absearch_locate (a : list Z) (h : Z) :
  Sorted Z.le a ->
  Z.of_nat (length a) <= 2 ^ 31 ->
  _absearch a h = Ok (locate a h).
Proof.
  intros Hsorted Hlen.
  assert (Hs : StronglySorted Z.le a).
  { apply Sorted_StronglySorted; [|done]. intros x y z. apply Z.le_trans. }
  destruct (bisect_spec a h Hs Hlen (length a) 0 (Z.of_nat (length a) - 1))
    as (i' & j' & Hbis & [Hi' Hmax] & _ & Hbelow); [lia..| |].
  { intros k y Hk. lia. }
  unfold _absearch. rewrite Hbis. simpl.
  pose proof (scan_spec a h (Z.to_nat (Z.of_nat (length a) - i')) i' Hi'
                ltac:(lia) Hbelow) as Hscan.
  unfold locate. destruct (scan _ a h i') as [i2|].
  - destruct Hscan as (Hi2 & [x [Hx Hhx]] & Hb2).
    assert (Hfind : list_find (fun x => h <= x) a = Some (Z.to_nat i2, x)).
    { apply list_find_Some. split; [done|]. split; [done|].
      intros j y Hy Hj. specialize (Hb2 j y ltac:(lia) Hy). lia. }
    rewrite Hfind. f_equal. lia.
  - assert (Hfind : list_find (fun x => h <= x) a = None).
    { apply list_find_None, Forall_forall. intros y Hy.
      apply list_elem_of_lookup in Hy as [k Hk].
      pose proof (lookup_lt_Some _ _ _ Hk).
      specialize (Hscan k y ltac:(lia) Hk). lia. }
    rewrite Hfind. f_equal.
    destruct a; [done|]. by rewrite decide_False.
Qed.

(** On an ascending array that is not empty the search returns an index
    of the array. *)
Lemma absearch_index (a : list Z) (h : Z) :
  Sorted Z.le a -> Z.of_nat (length a) <= 2 ^ 31 -> a <> [] ->
  exists (i : nat) x, _absearch a h = Ok (Z.of_nat i) /\ a !! i = Some x.
Proof.
  intros Hs Hlen Hne. rewrite (absearch_locate a h Hs Hlen). unfold locate.
  destruct (list_find _ a) as [[i x]|] eqn:Hfind.
  - apply list_find_Some in Hfind as (Hx & _). by exists i, x.
  - destruct a as [|x a]; [done|]. rewrite decide_False by done.
    by exists 0%nat, x.
Qed.

(** ** Removal *)

Lemma length_swap_remove {A} (ix : nat) (a : list A) :
  length (swap_remove ix a) = pred (length a).
Proof.
  unfold swap_remove. destruct (last a) as [x|] eqn:Hlast.
  - rewrite length_take, length_insert. lia.
  - apply last_None in Hlast. by subst.
Qed.

Lemma delete_app_lt {A} (ix : nat) (a b : list A) :
  (ix < length a)%nat -> delete ix (a ++ b) = delete ix a ++ b.
Proof.
  revert ix. induction a as [|x a IH]; intros [|ix] Hlt; simpl in *; try lia.
  - done.
  - f_equal. apply IH. lia.
Qed.

Lemma delete_insert_same {A} (ix : nat) (a : list A) (x : A) :
  delete ix (<[ix:=x]> a) = delete ix a.
Proof.
  revert ix. induction a as [|y a IH]; intros [|ix]; simpl; try done.
  f_equal. apply IH.
Qed.

Lemma swap_remove_Permutation {A} (ix : nat) (a : list A) x :
  a !! ix = Some x -> swap_remove ix a ≡ₚ delete ix a.
Proof.
  intros Hix. pose proof (lookup_lt_Some _ _ _ Hix) as Hlt.
  destruct a as [|a0 a'] using rev_ind; [done|]. clear IHa'.
  unfold swap_remove. rewrite last_snoc, length_app. simpl.
  replace (length a' + 1 - 1)%nat with (length a') by lia.
  rewrite length_app in Hlt. simpl in Hlt.
  destruct (decide (ix = length a')) as [->|Hne].
  - rewrite list_insert_id by (by apply list_lookup_middle).
    by rewrite take_app_length, delete_middle, app_nil_r.
  - assert (Hlt' : (ix < length a')%nat) by lia.
    rewrite insert_app_l by done.
    rewrite take_app_length' by (by rewrite length_insert).
    rewrite delete_app_lt by done.
    rewrite lookup_app_l in Hix by done.
    assert (Hins : <[ix:=a0]> a' !! ix = Some a0)
      by (by apply list_lookup_insert_eq).
    rewrite (delete_Permutation _ _ _ Hins).
    rewrite delete_insert_same.
    by rewrite Permutation_cons_append.
Qed.

Lemma swap_remove_zip {A B} (ix : nat) (a : list A) (b : list B) :
  length a = length b ->
  zip (swap_remove ix a) (swap_remove ix b) = swap_remove ix (zip a b).
Proof.
  intros Hlen. unfold swap_remove.
  rewrite !last_lookup, length_zip_with, <- Hlen, Nat.min_id.
  rewrite lookup_zip_with.
  destruct (a !! pred (length a)) as [x|] eqn:Ha;
    destruct (b !! pred (length a)) as [y|] eqn:Hb; simpl.
  - rewrite <- zip_with_take.
    by rewrite insert_zip_with.
  - apply lookup_lt_Some in Ha. apply lookup_ge_None in Hb. lia.
  - apply lookup_ge_None in Ha. apply lookup_lt_Some in Hb. lia.
  - done.
Qed.

Lemma filter_all {A} (P : A -> Prop) `{!forall x, Decision (P x)} (l : list A) :
  Forall P l -> filter P l = l.
Proof.
  induction 1 as [|x l Hx _ IH]; [done|].
  by rewrite filter_cons_True, IH.
Qed.

Lemma filter_none {A} (P : A -> Prop) `{!forall x, Decision (P x)} (l : list A) :
  Forall (fun x => ~ P x) l -> filter P l = [].
Proof.
  induction 1 as [|x l Hx _ IH]; [done|].
  by rewrite filter_cons_False, IH.
Qed.

Section remove_facts.
Context {node : Type} `{EqDecision node}.
Implicit Types (r : ring node) (nd : node).

Lemma indexOf_Some l nd ix :
  indexOf l nd = Some ix -> l !! ix = Some nd.
Proof.
  revert ix. induction l as [|x l IH]; intros ix Hix; [done|].
  simpl in Hix. destruct (decide (x = nd)) as [->|Hne].
  - by simplify_eq.
  - destruct (indexOf l nd) as [k|]; simplify_eq/=. by apply IH.
Qed.

Lemma indexOf_None l nd : indexOf l nd = None <-> nd ∉ l.
Proof.
  induction l as [|x l IH]; simpl.
  - split; [intros _; apply not_elem_of_nil|done].
  - destruct (decide (x = nd)) as [->|Hne].
    + split; [done|]. intros Hnot. exfalso. apply Hnot. left.
    + rewrite not_elem_of_cons. destruct (indexOf l nd); simpl.
      * split; [done|]. intros [_ Hnot]. by apply IH in Hnot.
      * split; [|done]. intros _. split; [done|]. by apply IH.
Qed.

(** One round of the loop of [remove] on a found index. *)
Lemma remove_at_spec r nd ix :
  parallel r -> indexOf (_nodes r) nd = Some ix ->
  exists keys r1,
    _nodeKeys r !! ix = Some keys /\ remove_at r ix = Ok r1 /\
    parallel r1 /\
    length (_nodes r1) = pred (length (_nodes r)) /\
    registrations r !! ix = Some (nd, keys) /\
    registrations r1 ≡ₚ delete ix (registrations r) /\
    _keyMap r1 = _keyMap r /\ _range r1 = _range r /\ _keys r1 = None /\
    nodeCount r1 = nodeCount r - 1 /\
    keyCount r1 = keyCount r - Z.of_nat (length keys).
Proof.
  intros Hpar Hix. apply indexOf_Some in Hix.
  pose proof (lookup_lt_Some _ _ _ Hix) as Hlt.
  destruct (lookup_lt_is_Some_2 (_nodeKeys r) ix) as [keys Hkeys];
    [by rewrite <- Hpar|].
  assert (Hreg : registrations r !! ix = Some (nd, keys)).
  { unfold registrations. rewrite lookup_zip_with, Hix. simpl. by rewrite Hkeys. }
  exists keys. unfold remove_at. rewrite Hkeys. eexists. split; [done|].
  split; [done|]. unfold parallel, registrations. simpl.
  rewrite !length_swap_remove.
  repeat split; try done.
  - by rewrite Hpar.
  - rewrite swap_remove_zip by done.
    by apply (swap_remove_Permutation _ _ (nd, keys)).
Qed.

Lemma remove_loop_keyMap fuel : forall r nd r',
  remove_loop fuel r nd = Ok r' ->
  _keyMap r' = _keyMap r /\ _range r' = _range r.
Proof.
  induction fuel as [|fuel IH]; intros r nd r' Hrun; simpl in Hrun.
  - destruct (indexOf (_nodes r) nd); by simplify_eq.
  - destruct (indexOf (_nodes r) nd) as [ix|]; [|by simplify_eq].
    unfold remove_at in Hrun.
    destruct (_nodeKeys r !! ix) as [keys|]; [|done].
    apply IH in Hrun. done.
Qed.

Lemma filter_delete_other nd (l : list (node * list Z)) ix keys :
  l !! ix = Some (nd, keys) ->
  filter (not_of_node nd) (delete ix l) = filter (not_of_node nd) l.
Proof.
  revert ix. induction l as [|p l IH]; intros [|ix] Hix; simplify_eq/=.
  - rewrite filter_cons_False; [done|]. unfold not_of_node. simpl. tauto.
  - rewrite !filter_cons. destruct (decide (not_of_node nd p)); by rewrite (IH ix).
Qed.

Lemma filter_delete_same nd (l : list (node * list Z)) ix keys :
  l !! ix = Some (nd, keys) ->
  filter (of_node nd) l ≡ₚ (nd, keys) :: filter (of_node nd) (delete ix l).
Proof.
  intros Hix. rewrite (delete_Permutation l ix _ Hix) at 1.
  by rewrite filter_cons_True.
Qed.

Lemma remove_loop_spec fuel : forall r nd,
  parallel r -> (length (_nodes r) <= fuel)%nat ->
  exists r',
    remove_loop fuel r nd = Ok r' /\ parallel r' /\
    registrations r' ≡ₚ filter (not_of_node nd) (registrations r) /\
    nodeCount r' =
      nodeCount r - Z.of_nat (length (filter (of_node nd) (registrations r))) /\
    keyCount r' =
      keyCount r - Z.of_nat (sum_list_with (fun p => length p.2)
                               (filter (of_node nd) (registrations r))) /\
    (nd ∈ _nodes r -> _keys r' = None) /\
    (nd ∉ _nodes r -> r' = r).
Proof.
  induction fuel as [|fuel IH]; intros r nd Hpar Hfuel.
  - assert (Hnil : _nodes r = []) by (apply nil_length_inv; lia).
    assert (Hnil' : _nodeKeys r = []).
    { apply nil_length_inv. rewrite <- Hpar, Hnil. done. }
    exists r. unfold registrations. simpl. rewrite Hnil, Hnil'. simpl.
    repeat split; try done; try lia. by intros ?%elem_of_nil.
  - simpl. destruct (indexOf (_nodes r) nd) as [ix|] eqn:Hix.
    + destruct (remove_at_spec r nd ix Hpar Hix)
        as (keys & r1 & Hkeys & Hat & Hpar1 & Hlen1 & Hreg & Hperm & Hmap
            & Hrange & Hcache & Hnc & Hkc).
      rewrite Hat. simpl.
      destruct (IH r1 nd Hpar1 ltac:(lia))
        as (r' & Hrun & Hpar' & Hperm' & Hnc' & Hkc' & _ & _).
      exists r'. split; [done|]. split; [done|].
      pose proof (filter_delete_same nd _ ix keys Hreg) as Hsame.
      rewrite Hperm in Hperm', Hnc', Hkc'.
      rewrite (filter_delete_other nd _ ix keys Hreg) in Hperm'.
      split; [done|]. rewrite Hsame. simpl.
      split; [lia|]. split; [lia|]. split.
      * intros _.
        destruct (decide (nd ∈ _nodes r1)) as [Hin|Hnotin].
        -- destruct (IH r1 nd Hpar1 ltac:(lia)) as (r2 & Hrun2 & Hrest).
           rewrite Hrun in Hrun2. simplify_eq.
           destruct Hrest as (_ & _ & _ & _ & Hnone & _). by apply Hnone.
        -- destruct (IH r1 nd Hpar1 ltac:(lia)) as (r2 & Hrun2 & Hrest).
           rewrite Hrun in Hrun2. simplify_eq.
           destruct Hrest as (_ & _ & _ & _ & _ & Hsame'). by rewrite Hsame'.
      * intros Hnotin. apply indexOf_Some in Hix.
        exfalso. apply Hnotin. by eapply list_elem_of_lookup_2.
    + apply indexOf_None in Hix. exists r. split; [done|]. split; [done|].
      assert (Hother : Forall (not_of_node nd) (registrations r)).
      { apply Forall_forall. intros [x ks] Hin%elem_of_zip_l.
        unfold not_of_node. simpl. by intros ->. }
      rewrite (filter_all _ _ Hother).
      rewrite (filter_none (of_node nd)).
      2:{ eapply Forall_impl; [exact Hother|].
          unfold of_node, not_of_node. tauto. }
      simpl. repeat split; try done; lia.
Qed.

End remove_facts.

(** ** The allocator *)

Section allocator_facts.
Context {V : Type}.
Implicit Types (keyMap : gmap (option Z) V) (points : list Z) (random : nat -> Z).

(** The [do ... while] loop returns: the attempt count bounds its rounds.
    The key it returns is the last draw; every earlier draw collided, and
    a colliding key is only returned with the attempt count at 10 or more. *)
Lemma draw_spec keyMap points random fuel : forall pos attemptCount,
  (9 <= fuel + attemptCount)%nat ->
  exists key pos' attemptCount',
    draw fuel keyMap points random pos attemptCount = Ok (key, pos', attemptCount') /\
    (pos < pos')%nat /\ key = random (pred pos') /\
    (forall q, (pos <= q < pred pos')%nat -> collides keyMap points (random q) = true) /\
    ((S pos < pos')%nat -> (attemptCount + (pred pos' - pos) <= 9)%nat) /\
    ((collides keyMap points key = false /\
      attemptCount' = (attemptCount + (pred pos' - pos))%nat) \/
     (collides keyMap points key = true /\
      attemptCount' = (attemptCount + (pos' - pos))%nat /\ (10 <= attemptCount')%nat)).
Proof.
  induction fuel as [|fuel IH]; intros pos a Hfuel; simpl.
  - destruct (collides keyMap points (random pos)) eqn:Hcol.
    + destruct (Nat.ltb_spec (S a) 10) as [Hlt|Hge]; [lia|].
      exists (random pos), (S pos), (S a). simpl.
      repeat split; try done; try lia. right. repeat split; [done|lia..].
    + exists (random pos), (S pos), a. simpl.
      repeat split; try done; try lia. left. split; [done|lia].
  - destruct (collides keyMap points (random pos)) eqn:Hcol.
    + destruct (Nat.ltb_spec (S a) 10) as [Hlt|Hge].
      * destruct (IH (S pos) (S a))
          as (key & pos' & a' & Hd & Hpos & Hkey & Hrej & Hnine & Hacc); [lia|].
        exists key, pos', a'. split; [done|]. split; [lia|]. split; [done|].
        split; [|split].
        -- intros q Hq. destruct (decide (q = pos)) as [->|Hne]; [done|].
           apply Hrej. lia.
        -- intros _. destruct (decide (pos' = S (S pos))) as [->|Hne]; simpl; [lia|].
           specialize (Hnine ltac:(lia)). lia.
        -- destruct Hacc as [[Hc Ha]|(Hc & Ha & Hten)]; [left|right];
             repeat split; try done; lia.
      * exists (random pos), (S pos), (S a). simpl.
        repeat split; try done; try lia. right. repeat split; [done|lia..].
    + exists (random pos), (S pos), a. simpl.
      repeat split; try done; try lia. left. split; [done|lia].
Qed.

(** The allocation of [n] points returns [n] points, each of them a draw,
    and evaluates the random source at most [n + 9] times. *)
Lemma allocate_spec keyMap random n : forall pos attemptCount points,
  exists new pos' attemptCount',
    allocate n keyMap random pos attemptCount points
      = Ok (points ++ new, pos', attemptCount') /\
    length new = n /\ (attemptCount <= attemptCount')%nat /\
    (pos + n <= pos')%nat /\
    (pos' + Nat.min attemptCount 9 <= pos + n + Nat.min attemptCount' 9)%nat.
Proof.
  induction n as [|n IH]; intros pos a points.
  - exists [], pos, a. simpl. rewrite app_nil_r. repeat split; try done; lia.
  - destruct (draw_spec keyMap points random 10 pos a ltac:(lia))
      as (key & pos1 & a1 & Hd & Hpos & _ & _ & Hnine & Hacc).
    cbn [allocate]. rewrite Hd. cbn [mbind result_bind].
    destruct (IH pos1 a1 (points ++ [key]))
      as (new & pos' & a' & Hal & Hlen & Ha & Hp & Hbound).
    exists (key :: new), pos', a'. rewrite Hal, <- app_assoc. simpl.
    split; [done|]. split; [by rewrite Hlen|].
    destruct (decide (pos1 = S pos)) as [->|Hne];
      [|specialize (Hnine ltac:(lia))];
      destruct Hacc as [[_ ->]|(_ & -> & Hten)]; repeat split; lia.
Qed.

End allocator_facts.

(** ** Registration *)

Section add_facts.
Context {node : Type} `{EqDecision node}.
Implicit Types (r : ring node) (nd : node).

Lemma _copy_id (o : list Z) : _copy o = o.
Proof. induction o as [|x o IH]; simpl; by rewrite ?IH. Qed.

Lemma makeControlPoints_spec r n random :
  exists points, _makeControlPoints r n random = Ok points /\ length points = n.
Proof.
  unfold _makeControlPoints.
  destruct (allocate_spec (_keyMap r) random n 0 0 [])
    as (new & pos' & a' & Hal & Hlen & _).
  rewrite Hal. simpl. by exists new.
Qed.

(** [add] always returns. *)
Lemma add_total r nd n points random :
  exists r', add r nd n points random = Ok r'.
Proof.
  unfold add. destruct points as [p|]; simpl; [by eexists|].
  destruct (makeControlPoints_spec r
              (or_1 n) random)
    as (pts & -> & _).
  simpl. by eexists.
Qed.

End add_facts.

(** ** Invariants of the reachable rings *)

Section ring_facts.
Context {node : Type} `{EqDecision node}.
Implicit Types (r : ring node) (nd : node).

Lemma get_ring r name r' v :
  get r name = Ok (r', v) -> r' = with_index r.
Proof.
  unfold get, with_index. intros Hget.
  destruct (keyCount _ =? 0); [by simplify_eq|].
  destruct (_absearch _ _); by simplify_eq/=.
Qed.

Lemma with_index_fields r :
  _nodes (with_index r) = _nodes r /\ _nodeKeys (with_index r) = _nodeKeys r /\
  _keyMap (with_index r) = _keyMap r /\ _range (with_index r) = _range r /\
  nodeCount (with_index r) = nodeCount r /\ keyCount (with_index r) = keyCount r.
Proof. unfold with_index. by destruct (_keys r). Qed.

Lemma with_index_keys r :
  index_fresh r ->
  _keys (with_index r) = Some (merge_sort Z.le (concat (_nodeKeys r))).
Proof.
  unfold with_index. intros [Hk|Hk]; rewrite Hk; done.
Qed.

(** [get] on a ring without control points returns [null]. *)
Lemma get_empty r name :
  keyCount r = 0 -> get r name = Ok (with_index r, Null).
Proof.
  intros Hk. unfold get. fold (with_index r).
  destruct (with_index_fields r) as (_ & _ & _ & _ & _ & ->).
  by rewrite Hk.
Qed.

Lemma add_fields r nd n points random r' :
  add r nd n points random = Ok r' ->
  exists pts,
    match points with
    | Some p => pts = p
    | None => length pts = or_1 n
    end /\
    _nodes r' = _nodes r ++ [nd] /\ _nodeKeys r' = _nodeKeys r ++ [pts] /\
    _keyMap r' = map_points (or_1 n)
                   0 pts nd (_keyMap r) /\
    _keys r' = None /\ _range r' = _range r /\
    nodeCount r' = nodeCount r + 1 /\
    keyCount r' = keyCount r
                  + Z.of_nat (or_1 n).
Proof.
  unfold add. destruct points as [p|]; simpl.
  - rewrite _copy_id. intros [= <-]. by exists p.
  - destruct (makeControlPoints_spec r
                (or_1 n) random)
      as (pts & -> & Hlen).
    simpl. intros [= <-]. by exists pts.
Qed.

Lemma step_invariant range r o r' :
  parallel r /\ index_fresh r /\ _range r = _range (ConsistentHash (node:=node) range) ->
  step r o = Ok r' ->
  parallel r' /\ index_fresh r' /\ _range r' = _range (ConsistentHash (node:=node) range).
Proof.
  intros (Hpar & Hfresh & Hrange) Hstep.
  destruct o as [nd n points random|nd|name]; simpl in Hstep.
  - apply add_fields in Hstep
      as (pts & _ & Hn & Hk & _ & Hkeys & Hr & _).
    unfold parallel, index_fresh. rewrite Hn, Hk, Hkeys, Hr, !length_app, Hpar.
    split; [done|]. split; [by left|done].
  - destruct (remove_loop_spec (length (_nodes r)) r nd Hpar ltac:(lia))
      as (r2 & Hrun & Hpar2 & _ & _ & _ & Hin & Hout).
    unfold remove in Hstep. rewrite Hrun in Hstep. simplify_eq.
    apply remove_loop_keyMap in Hrun as [_ Hr].
    split; [done|]. split; [|congruence].
    destruct (decide (nd ∈ _nodes r)) as [Hmem|Hmem].
    + left. by apply Hin.
    + by rewrite (Hout Hmem).
  - destruct (get r name) as [[r2 v]| |] eqn:Hget; simplify_eq/=.
    apply get_ring in Hget as ->.
    destruct (with_index_fields r) as (Hn & Hk & _ & Hr & _).
    unfold parallel, index_fresh. rewrite Hn, Hk, Hr.
    split; [done|]. split; [|done].
    right. by apply with_index_keys.
Qed.

Lemma reachable_invariant range r :
  reachable range r ->
  parallel r /\ index_fresh r /\ _range r = _range (ConsistentHash (node:=node) range).
Proof.
  induction 1 as [|r o r' _ IH Hstep].
  - split; [done|]. split; [by left|done].
  - by eapply step_invariant.
Qed.

Lemma run_reachable range ops : forall r r',
  reachable range r -> run r ops = Ok r' -> reachable range r'.
Proof.
  induction ops as [|o ops IH]; intros r r' Hreach Hrun; simpl in Hrun.
  - by simplify_eq.
  - destruct (step r o) as [r1| |] eqn:Hstep; simplify_eq/=.
    eapply IH; [|done]. by eapply reachable_step.
Qed.

Lemma length_sorted_points r :
  length (merge_sort Z.le (concat (_nodeKeys r))) = points_total r.
Proof.
  rewrite merge_sort_Permutation. unfold points_total.
  induction (_nodeKeys r) as [|ks l IH]; simpl; [done|].
  by rewrite length_app, IH.
Qed.

(** [get] returns on every reachable ring of at most 2^31 points. *)
Lemma get_returns range r name :
  reachable range r -> Z.of_nat (points_total r) <= 2 ^ 31 ->
  exists v, get r name = Ok (with_index r, v).
Proof.
  intros Hreach Hsize.
  destruct (reachable_invariant _ _ Hreach) as (_ & Hfresh & _).
  unfold get. fold (with_index r).
  destruct (keyCount (with_index r) =? 0); [by eexists|].
  rewrite (with_index_keys r Hfresh). cbn [default from_option id].
  rewrite absearch_locate.
  - cbn [mbind result_bind]. by eexists.
  - apply Sorted_merge_sort. apply _.
  - by rewrite length_sorted_points.
Qed.

End ring_facts.

(** ** What holds when the weight is the number of explicit points *)

Lemma sum_list_with_fmap {A B} (f : B -> nat) (g : A -> B) (l : list A) :
  sum_list_with f (g <$> l) = sum_list_with (fun x => f (g x)) l.
Proof. induction l as [|x l IH]; [done|]. csimpl. by rewrite IH. Qed.

Lemma sum_list_with_filter {A} (f : A -> nat) (P Q : A -> Prop)
    `{!forall x, Decision (P x)} `{!forall x, Decision (Q x)} (l : list A) :
  (forall x, Q x <-> ~ P x) ->
  sum_list_with f l
  = (sum_list_with f (filter P l) + sum_list_with f (filter Q l))%nat.
Proof.
  intros HPQ. induction l as [|x l IH]; [done|].
  rewrite !filter_cons. simpl. specialize (HPQ x).
  destruct (decide (P x)), (decide (Q x)); simpl; try tauto; lia.
Qed.

Lemma elem_of_concat {A} (x : A) (ls : list (list A)) :
  x ∈ concat ls <-> exists l, l ∈ ls /\ x ∈ l.
Proof.
  rewrite list_elem_of_In, in_concat. split.
  - intros (l & Hl & Hx). exists l. by rewrite !list_elem_of_In.
  - intros (l & Hl & Hx). exists l. by rewrite <- !list_elem_of_In.
Qed.

Section matched_facts.
Context {node : Type} `{EqDecision node}.
Implicit Types (r : ring node) (nd : node).

Lemma points_total_registrations r :
  parallel r ->
  points_total r = sum_list_with (fun p => length p.2) (registrations r).
Proof.
  intros Hpar. unfold points_total, registrations.
  rewrite <- (snd_zip (_nodes r) (_nodeKeys r)) at 1 by (by rewrite Hpar).
  apply sum_list_with_fmap.
Qed.

Lemma map_points_mono n : forall i points nd (keyMap : gmap (option Z) node) k,
  is_Some (keyMap !! k) -> is_Some (map_points n i points nd keyMap !! k).
Proof.
  induction n as [|n IH]; intros i points nd keyMap k Hk; [done|].
  simpl. apply IH. rewrite lookup_insert. by case_decide.
Qed.

Lemma map_points_covers n : forall i points nd (keyMap : gmap (option Z) node) j,
  (i <= j < i + n)%nat ->
  is_Some (map_points n i points nd keyMap !! (points !! j)).
Proof.
  induction n as [|n IH]; intros i points nd keyMap j Hj; [lia|].
  simpl. destruct (decide (j = i)) as [->|Hne].
  - apply map_points_mono. rewrite lookup_insert_eq. by eexists.
  - apply IH. lia.
Qed.

(** The point count is the number of registered points, and every
    registered point is in the map, as long as each [add] with explicit
    points has their number as its weight. *)
Lemma step_matched r o r' :
  matched o -> parallel r ->
  keyCount r = Z.of_nat (points_total r) /\ mapped r ->
  step r o = Ok r' ->
  keyCount r' = Z.of_nat (points_total r') /\ mapped r'.
Proof.
  intros Hm Hpar [Hcount Hmapped] Hstep.
  destruct o as [nd n points random|nd|name]; simpl in Hstep.
  - apply add_fields in Hstep
      as (pts & Hpts & _ & Hk & Hmap & _ & _ & _ & Hkc).
    assert (Hlen : length pts = or_1 n).
    { destruct points as [p|]; simpl in Hm; by subst. }
    split.
    + unfold points_total. rewrite Hkc, Hk, sum_list_with_app. simpl.
      unfold points_total in Hcount. lia.
    + intros p. rewrite Hk, concat_app, elem_of_app. simpl. rewrite app_nil_r.
      rewrite Hmap. intros [Hin|Hin].
      * apply map_points_mono. by apply Hmapped.
      * apply list_elem_of_lookup in Hin as [j Hj].
        rewrite <- Hj. apply map_points_covers.
        apply lookup_lt_Some in Hj. lia.
  - destruct (remove_loop_spec (length (_nodes r)) r nd Hpar ltac:(lia))
      as (r2 & Hrun & Hpar2 & Hperm & _ & Hkc & _ & _).
    unfold remove in Hstep. rewrite Hrun in Hstep. simplify_eq.
    apply remove_loop_keyMap in Hrun as [Hmap _].
    split.
    + rewrite Hkc, Hcount, (points_total_registrations r Hpar),
        (points_total_registrations r' Hpar2), Hperm.
      rewrite (sum_list_with_filter _ (of_node nd) (not_of_node nd)
                 (registrations r)) by done.
      lia.
    + intros p Hp. rewrite Hmap. apply Hmapped.
      rewrite <- (snd_zip (_nodes r') (_nodeKeys r')) in Hp by (by rewrite Hpar2).
      fold (registrations r') in Hp.
      rewrite <- (snd_zip (_nodes r) (_nodeKeys r)) by (by rewrite Hpar).
      fold (registrations r).
      apply elem_of_concat in Hp as (ks & Hks & Hp).
      apply elem_of_concat. exists ks. split; [|done].
      apply list_elem_of_fmap in Hks as (q & -> & Hq).
      rewrite Hperm in Hq. apply list_elem_of_filter in Hq as [_ Hq].
      apply list_elem_of_fmap. by exists q.
  - destruct (get r name) as [[r2 v]| |] eqn:Hget; simplify_eq/=.
    apply get_ring in Hget as ->.
    destruct (with_index_fields r) as (_ & Hk & Hmap & _ & _ & Hkc).
    unfold points_total, mapped. rewrite Hk, Hmap, Hkc. done.
Qed.

Lemma run_matched range ops : forall r r',
  reachable range r ->
  keyCount r = Z.of_nat (points_total r) /\ mapped r ->
  Forall matched ops -> run r ops = Ok r' ->
  keyCount r' = Z.of_nat (points_total r') /\ mapped r'.
Proof.
  induction ops as [|o ops IH]; intros r r' Hreach Hinv Hall Hrun; simpl in Hrun.
  - by simplify_eq.
  - apply Forall_cons in Hall as [Ho Hall].
    destruct (step r o) as [r1| |] eqn:Hstep; simplify_eq/=.
    apply (IH r1); [by eapply reachable_step| |done..].
    apply (step_matched r o); try done.
    by destruct (reachable_invariant _ _ Hreach).
Qed.

(** The point count of a ring built by matched operations is the number
    of its registered control points. *)
Lemma keyCount_matched range ops r :
  Forall matched ops -> run (ConsistentHash range) ops = Ok r ->
  keyCount r = Z.of_nat (points_total r).
Proof.
  intros Hall Hrun.
  apply (run_matched range ops (ConsistentHash range) r); try done.
  - apply reachable_new.
  - split; [done|]. intros p Hp. by apply elem_of_nil in Hp.
Qed.

(** On such a ring with at most 2^31 points, [get] returns [null]
    without control points and a node of the map otherwise. *)
Lemma get_matched range ops r name :
  Forall matched ops -> run (ConsistentHash range) ops = Ok r ->
  Z.of_nat (points_total r) <= 2 ^ 31 ->
  (keyCount r = 0 -> get r name = Ok (with_index r, Null)) /\
  (keyCount r > 0 -> exists nd, get r name = Ok (with_index r, Node nd)).
Proof.
  intros Hall Hrun Hsize. split; [apply get_empty|]. intros Hpos.
  destruct (run_matched range ops (ConsistentHash range) r) as [Hcount Hmapped];
    try done.
  { apply reachable_new. }
  { split; [done|]. intros p Hp. by apply elem_of_nil in Hp. }
  pose proof (run_reachable _ _ _ _ (reachable_new _) Hrun) as Hreach.
  destruct (reachable_invariant _ _ Hreach) as (_ & Hfresh & _).
  pose proof (with_index_keys r Hfresh) as Hkeys.
  destruct (with_index_fields r) as (_ & _ & Hmap & _ & _ & Hk).
  pose proof (length_sorted_points r) as Hlen.
  set (keys := merge_sort Z.le (concat (_nodeKeys r))) in *.
  assert (Hperm : keys ≡ₚ concat (_nodeKeys r)) by apply merge_sort_Permutation.
  destruct (absearch_index keys (Z.rem (_hash name) (_range (with_index r))))
    as (i & p & Hsearch & Hp).
  { apply Sorted_merge_sort. apply _. }
  { by rewrite Hlen. }
  { intros Hnil. rewrite Hnil in Hlen. simpl in Hlen. lia. }
  assert (Hin : p ∈ concat (_nodeKeys r)).
  { rewrite <- Hperm. by eapply list_elem_of_lookup_2. }
  destruct (Hmapped p Hin) as [nd Hnd].
  exists nd. unfold get. fold (with_index r). rewrite Hk.
  destruct (Z.eqb_spec (keyCount r) 0) as [|_]; [lia|].
  rewrite Hkeys. cbn [default from_option id]. rewrite Hsearch.
  cbn [mbind result_bind]. rewrite aget_lookup, Nat2Z.id, Hp by lia.
  unfold keyMap_get. by rewrite Hmap, Hnd.
Qed.

End matched_facts.

(** ** Main results *)



(** With a shift on unbounded integers the scheme gives another value once
    the addition has carried into bit 28. *)
Example rolling_shift_is_32_bit :
  let s := [122; 45; 163; 212; 177; 226; 166; 70; 28; 203; 135] in
  _hash s = 2359 /\ fold_left rolling_step_unbounded s 0 = 4294969655.
Proof. vm_compute. done. Qed.

(** C4: on an ascending array, [_absearch] returns the smallest index
    whose element is at least [h]; 0 when the array is not empty and [h]
    exceeds every element; -1 when the array is empty. *)
Theorem absearch_first_ge (a : list Z) (h : Z) :
  Sorted Z.le a ->
  Z.of_nat (length a) <= 2 ^ 31 ->
  (forall i : nat, first_ge a h i -> _absearch a h = Ok (Z.of_nat i)) /\
  (a <> [] -> Forall (fun x => x < h) a -> _absearch a h = Ok 0) /\
  (a = [] -> _absearch a h = Ok (-1)).
Proof.
  intros Hsorted Hlen. rewrite (absearch_locate a h Hsorted Hlen).
  unfold locate. split; [|split].
  - intros i [[x [Hx Hhx]] Hmin].
    assert (Hfind : list_find (fun x => h <= x) a = Some (i, x)).
    { apply list_find_Some. split; [done|]. split; [done|].
      intros j y Hy Hj. specialize (Hmin j y Hj Hy). lia. }
    by rewrite Hfind.
  - intros Hne Hall.
    assert (Hfind : list_find (fun x => h <= x) a = None).
    { apply list_find_None. eapply Forall_impl; [exact Hall|]. simpl. lia. }
    rewrite Hfind. by rewrite decide_False.
  - intros ->. done.
Qed.

Lemma absearch_first_ge_witness :
  _absearch forty_points 50 = Ok 17 /\ _absearch forty_points 1000 = Ok 0.
Proof.
  assert (Hs : Sorted Z.le forty_points).
  { apply (bool_decide_unpack _). vm_compute. exact I. }
  assert (Hlen : Z.of_nat (length forty_points) <= 2 ^ 31).
  { vm_compute. discriminate. }
  split.
  - apply (proj1 (absearch_first_ge forty_points 50 Hs Hlen) 17%nat).
    split.
    + exists 51. split; [reflexivity|lia].
    + intros j y Hj Hy.
      do 17 (destruct j as [|j]; [injection Hy as <-; reflexivity|]).
      lia.
  - apply (proj2 (absearch_first_ge forty_points 1000 Hs Hlen)); [discriminate|].
    apply (bool_decide_unpack _). vm_compute. exact I.
Defined.



(** C6: [remove] takes out every registration of the node, duplicates
    too; the point count goes down by the length of each removed list and
    the node count by one for each; the sorted index is made stale.  When
    the node is not registered the ring is returned as it was. *)
Theorem remove_all_registrations {node : Type} `{EqDecision node}
    (r : ring node) (nd : node) :
  parallel r ->
  exists r',
    remove r nd = Ok r' /\
    (nd ∉ _nodes r') /\
    registrations r' ≡ₚ filter (not_of_node nd) (registrations r) /\
    keyCount r' =
      keyCount r - Z.of_nat (sum_list_with (fun p => length p.2)
                               (filter (of_node nd) (registrations r))) /\
    nodeCount r' =
      nodeCount r - Z.of_nat (length (filter (of_node nd) (registrations r))) /\
    (nd ∈ _nodes r -> _keys r' = None) /\
    (nd ∉ _nodes r -> r' = r).
Proof.
  intros Hpar.
  destruct (remove_loop_spec (length (_nodes r)) r nd Hpar ltac:(lia))
    as (r' & Hrun & Hpar' & Hperm & Hnc & Hkc & Hin & Hout).
  exists r'. repeat split; try done.
  intros Hmem.
  assert (Hfst : (registrations r').*1 = _nodes r').
  { apply fst_zip. by rewrite Hpar'. }
  rewrite <- Hfst in Hmem. apply list_elem_of_fmap in Hmem as ([x ks] & -> & Hreg).
  rewrite Hperm in Hreg. apply list_elem_of_filter in Hreg as [Hne _].
  by apply Hne.
Qed.

Lemma remove_all_registrations_witness :
  exists r',
    remove ring_xyx "X"%string = Ok r' /\
    _nodes r' = ["Y"%string] /\ _nodeKeys r' = [[7; 8]] /\
    keyCount r' = 2 /\ nodeCount r' = 1 /\ _keys r' = None.
Proof.
  destruct (remove_all_registrations ring_xyx "X"%string eq_refl)
    as (r' & Hrun & _ & _ & Hkc & Hnc & Hkeys & _).
  exists r'. split; [exact Hrun|].
  vm_compute in Hrun. injection Hrun as <-.
  repeat split; reflexivity.
Defined.

(** C9: [remove] leaves the map from points to nodes as it was, and the
    range too: the entries of the removed node stay in the map. *)
Theorem remove_leaves_keyMap {node : Type} `{EqDecision node}
    (r r' : ring node) (nd : node) :
  remove r nd = Ok r' ->
  _keyMap r' = _keyMap r /\ _range r' = _range r /\
  forall p, _keyMap r !! p = Some nd -> _keyMap r' !! p = Some nd.
Proof.
  intros Hrem. apply remove_loop_keyMap in Hrem as [Hmap Hrange].
  split; [done|]. split; [done|]. intros p. by rewrite Hmap.
Qed.

Lemma remove_leaves_keyMap_witness :
  exists r',
    remove ring_xyx "X"%string = Ok r' /\
    _keyMap r' = _keyMap ring_xyx /\ ("X"%string ∉ _nodes r') /\
    _keyMap r' !! Some 5 = Some "X"%string.
Proof.
  destruct (remove ring_xyx "X"%string) as [r'| |] eqn:Hrem;
    [|by vm_compute in Hrem..].
  destruct (remove_leaves_keyMap ring_xyx r' "X"%string Hrem) as (Hmap & _ & Hstale).
  exists r'. split; [reflexivity|]. split; [exact Hmap|]. split.
  - vm_compute in Hrem. injection Hrem as <-. simpl.
    intros Hin. apply list_elem_of_In in Hin. simpl in Hin.
    destruct Hin as [Hin|[]]. discriminate Hin.
  - apply Hstale. reflexivity.
Defined.


(** ** Where the code departs from its specification *)

(** C2: with three explicit points and no weight, [add] stores the three
    points but enters only the first one in the map and counts one point;
    with one explicit point and the weight 3 it counts three points and
    enters the key [undefined]. *)
Theorem add_explicit_points_uses_weight :
  (exists r,
     add (ConsistentHash None) "A"%string None (Some [10; 50; 90]) (fun _ => 0) = Ok r /\
     _nodeKeys r = [[10; 50; 90]] /\ keyCount r = 1 /\ nodeCount r = 1 /\
     _keyMap r !! Some 10 = Some "A"%string /\
     _keyMap r !! Some 50 = None /\ _keyMap r !! Some 90 = None) /\
  (exists r,
     add (ConsistentHash None) "A"%string (Some 3%nat) (Some [10]) (fun _ => 0) = Ok r /\
     _nodeKeys r = [[10]] /\ keyCount r = 3 /\
     _keyMap r !! None = Some "A"%string).
Proof. split; eexists; (split; [reflexivity|]); vm_compute; done. Qed.

(** C3: in a batch of two points on an empty map the second draw of 500
    is kept although 500 was chosen for the first point; and the attempt
    count is one for the batch: with the point 7 taken and every draw
    equal to 7, the first point uses ten draws and the second one draw. *)
Theorem allocate_keeps_batch_duplicate :
  allocate 2 (∅ : gmap (option Z) string) (fun _ => 500) 0 0 [] = Ok ([500; 500], 2%nat, 0%nat) /\
  _makeControlPoints (ConsistentHash (node:=string) None) 2 (fun _ => 500) = Ok [500; 500] /\
  allocate 1 (<[Some 7 := "A"%string]> ∅) (fun _ => 7) 0 0 [] = Ok ([7], 10%nat, 10%nat) /\
  allocate 2 (<[Some 7 := "A"%string]> ∅) (fun _ => 7) 0 0 [] = Ok ([7; 7], 11%nat, 11%nat) /\
  allocate 2 (∅ : gmap (option Z) string) (fun i => if i is O then 500 else 0) 0 0 []
    = Ok ([500; 0], 11%nat, 10%nat).
Proof. vm_compute. done. Qed.

(** C8: after one [add] with three explicit points and no weight the point
    count is 1 and the registered lists hold 3 points. *)
Theorem keyCount_differs_from_points :
  exists r : ring string,
    reachable (Some 100) r /\ keyCount r = 1 /\ points_total r = 3%nat /\
    keyCount r <> Z.of_nat (points_total r).
Proof.
  destruct ring_three_points as [r| |] eqn:Hr; [|by vm_compute in Hr..].
  pose proof (run_reachable _ _ _ _ (reachable_new _) Hr) as Hreach.
  vm_compute in Hr. injection Hr as <-.
  eexists. split; [exact Hreach|]. vm_compute. done.
Qed.

(** C1: on that ring, which counts one point, [get] of a key that hashes
    to 55 returns [undefined]; and on a ring where B was registered on the
    point of A and then removed, [get] returns B, which is not registered. *)
Theorem get_undefined_with_points :
  (exists r r' : ring string,
     reachable (Some 100) r /\ keyCount r > 0 /\
     _hash (of_ascii "7") = 55 /\
     get r (of_ascii "7") = Ok (r', Undefined)) /\
  (exists r r' : ring string,
     reachable None r /\ keyCount r > 0 /\ _nodes r = ["A"%string] /\
     get r (of_ascii "7") = Ok (r', Node "B"%string)).
Proof.
  split.
  - destruct ring_three_points as [r| |] eqn:Hr; [|by vm_compute in Hr..].
    pose proof (run_reachable _ _ _ _ (reachable_new _) Hr) as Hreach.
    vm_compute in Hr. injection Hr as <-.
    eexists. eexists. split; [exact Hreach|]. vm_compute. done.
  - destruct ring_stale as [r| |] eqn:Hr; [|by vm_compute in Hr..].
    pose proof (run_reachable _ _ _ _ (reachable_new _) Hr) as Hreach.
    vm_compute in Hr. injection Hr as <-.
    eexists. eexists. split; [exact Hreach|]. vm_compute. done.
Qed.

(** * More of the ring *)

(** ** Invariants of the registry *)

Lemma length_filter_split {A} (P Q : A -> Prop)
    `{!forall x, Decision (P x)} `{!forall x, Decision (Q x)} (l : list A) :
  (forall x, Q x <-> ~ P x) ->
  length l = (length (filter P l) + length (filter Q l))%nat.
Proof.
  intros HPQ. induction l as [|x l IH]; [done|].
  rewrite !filter_cons. simpl. specialize (HPQ x).
  destruct (decide (P x)), (decide (Q x)); simpl; try tauto; lia.
Qed.

Section registry_facts.
Context {node : Type} `{EqDecision node}.
Implicit Types (r : ring node) (nd : node).

Lemma length_registrations r :
  parallel r -> length (registrations r) = length (_nodes r).
Proof.
  intros Hpar. unfold registrations. rewrite length_zip_with. unfold parallel in Hpar. lia.
Qed.

Lemma step_nodeCount r o r' :
  parallel r -> nodeCount r = Z.of_nat (length (_nodes r)) ->
  step r o = Ok r' -> nodeCount r' = Z.of_nat (length (_nodes r')).
Proof.
  intros Hpar Hcount Hstep.
  destruct o as [nd n points random|nd|name]; simpl in Hstep.
  - apply add_fields in Hstep as (pts & _ & Hn & _ & _ & _ & _ & Hnc & _).
    rewrite Hnc, Hn, length_app. simpl. lia.
  - destruct (remove_loop_spec (length (_nodes r)) r nd Hpar ltac:(lia))
      as (r2 & Hrun & Hpar2 & Hperm & Hnc & _).
    unfold remove in Hstep. rewrite Hrun in Hstep. simplify_eq.
    rewrite Hnc, Hcount, <- (length_registrations r Hpar),
      <- (length_registrations r' Hpar2), Hperm.
    rewrite (length_filter_split (of_node nd) (not_of_node nd) (registrations r))
      by done.
    lia.
  - destruct (get r name) as [[r2 v]| |] eqn:Hget; simplify_eq/=.
    apply get_ring in Hget as ->.
    destruct (with_index_fields r) as (-> & _ & _ & _ & -> & _). done.
Qed.

Lemma step_keyMap_grows r o r' k :
  step r o = Ok r' -> is_Some (_keyMap r !! k) -> is_Some (_keyMap r' !! k).
Proof.
  intros Hstep Hk.
  destruct o as [nd n points random|nd|name]; simpl in Hstep.
  - apply add_fields in Hstep as (pts & _ & _ & _ & -> & _).
    by apply map_points_mono.
  - apply remove_loop_keyMap in Hstep as [-> _]. done.
  - destruct (get r name) as [[r2 v]| |] eqn:Hget; simplify_eq/=.
    apply get_ring in Hget as ->.
    destruct (with_index_fields r) as (_ & _ & -> & _). done.
Qed.

End registry_facts.

(** X1: in every ring that the operations reach, the list of nodes and
    the list of their control points have the same length, [nodeCount] is
    that length, the range is not zero, and the cached sorted index, when
    there is one, holds all registered control points in ascending order,
    duplicates kept. *)
Theorem reachable_registry {node : Type} `{EqDecision node}
    (range : option Z) (r : ring node) :
  reachable range r ->
  length (_nodes r) = length (_nodeKeys r) /\
  nodeCount r = Z.of_nat (length (_nodes r)) /\
  _range r <> 0 /\
  (forall keys, _keys r = Some keys ->
     Sorted Z.le keys /\ keys ≡ₚ concat (_nodeKeys r)).
Proof.
  intros Hreach.
  assert (Hnc : nodeCount r = Z.of_nat (length (_nodes r))).
  { induction Hreach as [|r o r' Hreach IH Hstep]; [done|].
    destruct (reachable_invariant _ _ Hreach) as (Hpar & _).
    by eapply step_nodeCount. }
  destruct (reachable_invariant _ _ Hreach) as (Hpar & Hfresh & Hrange).
  split; [done|]. split; [done|]. split.
  - rewrite Hrange. simpl. destruct range as [z|]; [|done].
    destruct (Z.eqb_spec z 0); [done|done].
  - intros keys Hkeys. destruct Hfresh as [Hf|Hf]; [congruence|].
    rewrite Hf in Hkeys. injection Hkeys as <-. split.
    + apply Sorted_merge_sort. apply _.
    + apply merge_sort_Permutation.
Qed.

Lemma reachable_registry_witness :
  exists r, ring_xyx_run = Ok r /\
    length (_nodes r) = length (_nodeKeys r) /\
    nodeCount r = Z.of_nat (length (_nodes r)) /\ _range r <> 0.
Proof.
  destruct ring_xyx_run as [r| |] eqn:Hr; [|by vm_compute in Hr..].
  pose proof (run_reachable _ _ _ _ (reachable_new _) Hr) as Hreach.
  destruct (reachable_registry _ r Hreach) as (H1 & H2 & H3 & _).
  exists r. split; [reflexivity|]. split; [exact H1|]. split; [exact H2|exact H3].
Defined.

(** X2: no operation takes a key out of the map from points to nodes: a
    point that has an entry keeps one through every sequence of [add],
    [remove] and [get]. *)
Theorem keyMap_never_shrinks {node : Type} `{EqDecision node}
    (ops : list (op node)) (r r' : ring node) (k : option Z) :
  run r ops = Ok r' ->
  is_Some (_keyMap r !! k) -> is_Some (_keyMap r' !! k).
Proof.
  revert r. induction ops as [|o ops IH]; intros r Hrun Hk; simpl in Hrun.
  - by simplify_eq.
  - destruct (step r o) as [r1| |] eqn:Hstep; simplify_eq/=.
    apply (IH r1); [done|]. by eapply step_keyMap_grows.
Qed.

Lemma keyMap_never_shrinks_witness :
  exists r', run ring_xyx
               [Remove "X"%string; Get (of_ascii "k"); Remove "Y"%string] = Ok r' /\
    _nodes r' = [] /\ is_Some (_keyMap r' !! Some 500).
Proof.
  destruct (run ring_xyx _) as [r'| |] eqn:Hrun; [|by vm_compute in Hrun..].
  exists r'. split; [reflexivity|]. split.
  - vm_compute in Hrun. injection Hrun as <-. reflexivity.
  - apply (keyMap_never_shrinks _ ring_xyx r' (Some 500) Hrun).
    exists "X"%string. reflexivity.
Defined.

(** X3: a second [get] of the same key returns the same value and leaves
    the ring as the first one left it; [get] changes nothing but the
    cached index. *)
Theorem get_twice {node : Type} `{EqDecision node}
    (r r1 : ring node) (name : JS.str) (v : value node) :
  get r name = Ok (r1, v) ->
  get r1 name = Ok (r1, v) /\
  _nodes r1 = _nodes r /\ _nodeKeys r1 = _nodeKeys r /\ _keyMap r1 = _keyMap r /\
  nodeCount r1 = nodeCount r /\ keyCount r1 = keyCount r /\ _range r1 = _range r.
Proof.
  intros Hget. pose proof (get_ring _ _ _ _ Hget) as ->.
  destruct (with_index_fields r) as (Hn & Hk & Hm & Hr & Hnc & Hkc).
  split; [|done].
  assert (Hfix : with_index (with_index r) = with_index r).
  { unfold with_index. destruct (_keys r) eqn:Hkeys; [by rewrite Hkeys|done]. }
  unfold get in *. fold (with_index r) in Hget.
  fold (with_index (with_index r)). by rewrite Hfix.
Qed.

Lemma get_twice_witness :
  exists r1, get ring_xyx (of_ascii "key") = Ok (r1, Node "X"%string) /\
    get r1 (of_ascii "key") = Ok (r1, Node "X"%string).
Proof.
  destruct (get ring_xyx (of_ascii "key")) as [[r1 v]| |] eqn:Hget;
    [|by vm_compute in Hget..].
  destruct (get_twice ring_xyx r1 (of_ascii "key") v Hget) as [Hagain _].
  assert (Hv : v = Node "X"%string).
  { vm_compute in Hget. injection Hget as _ <-. reflexivity. }
  subst v. exists r1. split; [reflexivity|exact Hagain].
Defined.

(** ** Registration and removal *)

Lemma swap_remove_last {A} (l : list A) (x : A) :
  swap_remove (length l) (l ++ [x]) = l.
Proof.
  unfold swap_remove. rewrite last_snoc, length_app. simpl.
  replace (length l + 1 - 1)%nat with (length l) by lia.
  rewrite list_insert_id by (by apply list_lookup_middle).
  apply take_app_length.
Qed.

Section registration_facts.
Context {node : Type} `{EqDecision node}.
Implicit Types (r : ring node) (nd : node).

Lemma map_points_keeps n : forall i points nd (keyMap : gmap (option Z) node) k,
  keyMap !! k = Some nd -> map_points n i points nd keyMap !! k = Some nd.
Proof.
  induction n as [|n IH]; intros i points nd keyMap k Hk; [done|].
  simpl. apply IH. rewrite lookup_insert. by case_decide.
Qed.

Lemma map_points_inside n : forall i points nd (keyMap : gmap (option Z) node) j,
  (i <= j < i + n)%nat ->
  map_points n i points nd keyMap !! (points !! j) = Some nd.
Proof.
  induction n as [|n IH]; intros i points nd keyMap j Hj; [lia|].
  simpl. destruct (decide (j = i)) as [->|Hne].
  - apply map_points_keeps. by rewrite lookup_insert_eq.
  - apply IH. lia.
Qed.

Lemma map_points_outside n : forall i points nd (keyMap : gmap (option Z) node) k,
  (forall j, (i <= j < i + n)%nat -> points !! j <> k) ->
  map_points n i points nd keyMap !! k = keyMap !! k.
Proof.
  induction n as [|n IH]; intros i points nd keyMap k Hk; [done|].
  simpl. rewrite IH by (intros j Hj; apply Hk; lia).
  apply lookup_insert_ne. apply Hk. lia.
Qed.

Lemma indexOf_app_new (l : list node) nd :
  nd ∉ l -> indexOf (l ++ [nd]) nd = Some (length l).
Proof.
  induction l as [|x l IH]; intros Hnot; simpl.
  - by rewrite decide_True.
  - apply not_elem_of_cons in Hnot as [Hne Hnot].
    rewrite decide_False by done. by rewrite IH.
Qed.

Lemma remove_loop_absent fuel : forall r nd r',
  remove_loop fuel r nd = Ok r' -> indexOf (_nodes r') nd = None.
Proof.
  induction fuel as [|fuel IH]; intros r nd r' Hrun; simpl in Hrun.
  - destruct (indexOf (_nodes r) nd) eqn:Hix; by simplify_eq.
  - destruct (indexOf (_nodes r) nd) as [ix|] eqn:Hix; [|by simplify_eq].
    destruct (remove_at r ix) as [r1| |]; simplify_eq/=. by eapply IH.
Qed.

Lemma remove_loop_done fuel r nd :
  indexOf (_nodes r) nd = None -> remove_loop fuel r nd = Ok r.
Proof. intros Hix. destruct fuel; simpl; by rewrite Hix. Qed.

End registration_facts.



(** X5: removing a node right after it was added to a ring that did not
    have it gives back the two lists and the node count; the point count
    is back too when the weight was the number of points; the map keeps
    the entries of the node. *)
Theorem add_then_remove {node : Type} `{EqDecision node}
    (r r1 : ring node) (nd : node) (n : option nat)
    (points : option (list Z)) (random : nat -> Z) :
  parallel r -> nd ∉ _nodes r ->
  add r nd n points random = Ok r1 ->
  exists r2 pts,
    remove r1 nd = Ok r2 /\ last (_nodeKeys r1) = Some pts /\
    _nodes r2 = _nodes r /\ _nodeKeys r2 = _nodeKeys r /\
    nodeCount r2 = nodeCount r /\
    keyCount r2 = keyCount r + Z.of_nat (or_1 n) - Z.of_nat (length pts) /\
    (matched (Add nd n points random) -> keyCount r2 = keyCount r) /\
    _keyMap r2 = _keyMap r1 /\ _keys r2 = None.
Proof.
  intros Hpar Hnot Hadd. unfold parallel in Hpar.
  apply add_fields in Hadd as (pts & Hpts & Hn & Hk & Hmap & _ & _ & Hnc & Hkc).
  pose proof (indexOf_app_new (_nodes r) nd Hnot) as Hix.
  assert (Hlook : _nodeKeys r1 !! length (_nodes r) = Some pts).
  { rewrite Hk, Hpar. by apply list_lookup_middle. }
  unfold remove. rewrite Hn, length_app, Nat.add_1_r.
  cbn [remove_loop]. rewrite Hn, Hix. unfold remove_at. rewrite Hlook.
  cbn [mbind result_bind].
  rewrite Hn, swap_remove_last.
  rewrite Hk.
  replace (swap_remove (length (_nodes r)) (_nodeKeys r ++ [pts]))
    with (_nodeKeys r) by (rewrite Hpar; symmetry; apply swap_remove_last).
  rewrite remove_loop_done by (by apply indexOf_None).
  eexists _, pts. split; [reflexivity|]. simpl.
  split; [apply last_snoc|].
  repeat split; try done; try lia.
  intros Hm. assert (length pts = or_1 n); [|lia].
  destruct points as [p|]; simpl in Hm; by subst.
Qed.

Lemma add_then_remove_witness :
  exists r1 r2,
    add ring_xyx "Z"%string (Some 2%nat) (Some [8; 900]) (fun _ => 0) = Ok r1 /\
    remove r1 "Z"%string = Ok r2 /\
    _nodes r2 = _nodes ring_xyx /\ _nodeKeys r2 = _nodeKeys ring_xyx /\
    keyCount r2 = keyCount ring_xyx /\
    _keyMap r2 !! Some 900 = Some "Z"%string.
Proof.
  destruct (add ring_xyx "Z"%string (Some 2%nat) (Some [8; 900]) (fun _ => 0))
    as [r1| |] eqn:Hadd; [|by vm_compute in Hadd..].
  assert (Hnot : "Z"%string ∉ _nodes ring_xyx).
  { apply (bool_decide_unpack _). vm_compute. exact I. }
  destruct (add_then_remove ring_xyx r1 _ _ _ _ eq_refl Hnot Hadd)
    as (r2 & pts & Hrem & _ & Hn & Hk & _ & _ & Hkc & Hmap & _).
  exists r1, r2. split; [reflexivity|]. split; [exact Hrem|].
  split; [exact Hn|]. split; [exact Hk|]. split; [apply Hkc; reflexivity|].
  rewrite Hmap. vm_compute in Hadd. injection Hadd as <-. reflexivity.
Defined.

(** X6: once [remove] has returned, the node is not in the list of nodes
    any more and a second [remove] of it returns the ring unchanged. *)
Theorem remove_twice {node : Type} `{EqDecision node}
    (r r1 : ring node) (nd : node) :
  remove r nd = Ok r1 ->
  (nd ∉ _nodes r1) /\ remove r1 nd = Ok r1.
Proof.
  intros Hrem. apply remove_loop_absent in Hrem. split.
  - by apply indexOf_None.
  - by apply remove_loop_done.
Qed.

Lemma remove_twice_witness :
  exists r1, remove ring_xyx "X"%string = Ok r1 /\ remove r1 "X"%string = Ok r1.
Proof.
  destruct (remove ring_xyx "X"%string) as [r1| |] eqn:Hrem;
    [|by vm_compute in Hrem..].
  exists r1. split; [reflexivity|].
  exact (proj2 (remove_twice ring_xyx r1 "X"%string Hrem)).
Defined.

(** X7: [locateNext] returns [null] exactly for a node that is not
    registered and the empty array for a registered one: the empty array
    after an [add] of the node and [null] after its [remove]. *)
Theorem locateNext_registered {node : Type} `{EqDecision node}
    (r : ring node) (nd : node) (offset : Z) :
  (locateNext r nd offset = NoNode <-> nd ∉ _nodes r) /\
  (locateNext r nd offset = Nodes [] <-> nd ∈ _nodes r) /\
  (forall n points random r',
     add r nd n points random = Ok r' -> locateNext r' nd offset = Nodes []) /\
  (forall r', remove r nd = Ok r' -> locateNext r' nd offset = NoNode).
Proof.
  assert (Hnone : forall r0 : ring node,
            locateNext r0 nd offset = NoNode <-> nd ∉ _nodes r0).
  { intros r0. unfold locateNext. rewrite <- indexOf_None.
    destruct (indexOf (_nodes r0) nd); split; done. }
  assert (Hsome : forall r0 : ring node,
            locateNext r0 nd offset = Nodes [] <-> nd ∈ _nodes r0).
  { intros r0. split.
    - intros Hl. destruct (decide (nd ∈ _nodes r0)) as [|Hn]; [done|].
      apply Hnone in Hn. congruence.
    - intros Hin. unfold locateNext.
      destruct (indexOf (_nodes r0) nd) eqn:Hix; [done|].
      by apply indexOf_None in Hix. }
  split; [apply Hnone|]. split; [apply Hsome|]. split.
  - intros n points random r' Hadd. apply Hsome.
    apply add_fields in Hadd as (pts & _ & -> & _).
    apply elem_of_app. right. by apply list_elem_of_singleton.
  - intros r' Hrem. apply Hnone. apply indexOf_None.
    by eapply remove_loop_absent.
Qed.

(** ** Which point a key resolves to *)

Lemma locate_successor (keys : list Z) (h : Z) :
  StronglySorted Z.le keys -> keys <> [] ->
  exists v, aget keys (locate keys h) = Some v /\ successor keys h v.
Proof.
  intros Hs Hne. unfold locate.
  destruct (list_find _ keys) as [[i x]|] eqn:Hfind.
  - apply list_find_Some in Hfind as (Hx & Hhx & Hmin).
    exists x. rewrite aget_lookup, Nat2Z.id by lia. split; [done|].
    split; [by eapply list_elem_of_lookup_2|]. left. split; [done|].
    intros y Hy Hhy. apply list_elem_of_lookup in Hy as [j Hj].
    destruct (Nat.lt_ge_cases j i) as [Hlt|Hge].
    + by destruct (Hmin j y Hj Hlt).
    + by apply (sorted_lookup_le keys Hs i j).
  - apply list_find_None in Hfind. rewrite Forall_forall in Hfind.
    destruct keys as [|v keys]; [done|]. rewrite decide_False by done.
    exists v. split; [done|]. split; [left|]. right. split.
    + intros x Hx. specialize (Hfind x Hx). lia.
    + intros x Hx. apply list_elem_of_lookup in Hx as [j Hj].
      apply (sorted_lookup_le (v :: keys) Hs 0 j); [done|done|lia].
Qed.

Lemma successor_unique (keys : list Z) (h v w : Z) :
  successor keys h v -> successor keys h w -> v = w.
Proof.
  intros [Hv [[Hhv Hvmin]|[Hvall Hvmin]]] [Hw [[Hhw Hwmin]|[Hwall Hwmin]]].
  - specialize (Hvmin w Hw Hhw). specialize (Hwmin v Hv Hhv). lia.
  - specialize (Hwall v Hv). lia.
  - specialize (Hvall w Hw). lia.
  - specialize (Hvmin w Hw). specialize (Hwmin v Hv). lia.
Qed.

Lemma successor_subset (l l' : list Z) (h v : Z) :
  (forall x, x ∈ l' -> x ∈ l) -> v ∈ l' ->
  successor l h v -> successor l' h v.
Proof.
  intros Hsub Hv [_ [[Hhv Hmin]|[Hall Hmin]]]; (split; [done|]); [left|right].
  - split; [done|]. intros x Hx. apply Hmin. by apply Hsub.
  - split; intros x Hx; [apply Hall|apply Hmin]; by apply Hsub.
Qed.

Lemma successor_added (l pts l' : list Z) (h v w : Z) :
  (forall x, x ∈ l' <-> x ∈ l \/ x ∈ pts) ->
  successor l h v -> successor l' h w -> w = v \/ w ∈ pts.
Proof.
  intros Hl' [Hv Hvs] [Hw Hws].
  apply Hl' in Hw as [Hw|Hw]; [left|by right].
  assert (Hv' : v ∈ l') by (apply Hl'; by left).
  destruct Hvs as [[Hhv Hvmin]|[Hvall Hvmin]], Hws as [[Hhw Hwmin]|[Hwall Hwmin]].
  - specialize (Hvmin w Hw Hhw). specialize (Hwmin v Hv' Hhv). lia.
  - specialize (Hwall v Hv'). lia.
  - specialize (Hvall w Hw). lia.
  - specialize (Hvmin w Hw). specialize (Hwmin v Hv'). lia.
Qed.

Section lookup_facts.
Context {node : Type} `{EqDecision node}.
Implicit Types (r : ring node) (nd : node).

Lemma points_total_concat r : points_total r = length (concat (_nodeKeys r)).
Proof.
  unfold points_total. induction (_nodeKeys r) as [|ks l IH]; simpl; [done|].
  by rewrite length_app, IH.
Qed.

(** [get] on a ring with control points returns the map's entry for the
    point that the hash of the key resolves to. *)
Lemma get_resolves r name :
  index_fresh r -> Z.of_nat (points_total r) <= 2 ^ 31 ->
  keyCount r <> 0 -> points_total r <> 0%nat ->
  exists v,
    successor (concat (_nodeKeys r)) (Z.rem (_hash name) (_range r)) v /\
    get r name = Ok (with_index r, keyMap_get (_keyMap r) (Some v)).
Proof.
  intros Hfresh Hsize Hkc Htotal.
  pose proof (with_index_keys r Hfresh) as Hkeys.
  destruct (with_index_fields r) as (_ & _ & Hmap & Hr & _ & Hk).
  pose proof (length_sorted_points r) as Hlen.
  set (keys := merge_sort Z.le (concat (_nodeKeys r))) in *.
  assert (Hperm : keys ≡ₚ concat (_nodeKeys r)) by apply merge_sort_Permutation.
  assert (Hs : StronglySorted Z.le keys).
  { apply StronglySorted_merge_sort; apply _. }
  assert (Hne : keys <> []).
  { intros Hnil. rewrite Hnil in Hlen. simpl in Hlen. lia. }
  destruct (locate_successor keys (Z.rem (_hash name) (_range r)) Hs Hne)
    as (v & Hv & Hsucc).
  exists v. split.
  - apply (successor_subset keys); [|by rewrite <- Hperm; apply Hsucc|done].
    intros x Hx. by rewrite Hperm.
  - unfold get. fold (with_index r). rewrite Hk.
    destruct (Z.eqb_spec (keyCount r) 0) as [|_]; [done|].
    rewrite Hkeys, Hr, Hmap. cbn [default from_option id].
    rewrite absearch_locate.
    + cbn [mbind result_bind]. by rewrite Hv.
    + apply Sorted_merge_sort. apply _.
    + by rewrite Hlen.
Qed.

Lemma get_node r name r1 nd :
  get r name = Ok (r1, Node nd) -> keyCount r <> 0.
Proof.
  intros Hget Hk. rewrite get_empty in Hget by done. by simplify_eq.
Qed.

Lemma keyMap_get_node (keyMap : gmap (option Z) node) k nd :
  keyMap_get keyMap k = Node nd <-> keyMap !! k = Some nd.
Proof.
  unfold keyMap_get. destruct (keyMap !! k); split; intros; by simplify_eq.
Qed.

Lemma registration_of_points r ks :
  parallel r -> ks ∈ _nodeKeys r -> exists nd, (nd, ks) ∈ registrations r.
Proof.
  intros Hpar Hks.
  rewrite <- (snd_zip (_nodes r) (_nodeKeys r)) in Hks by (by rewrite Hpar).
  apply list_elem_of_fmap in Hks as ([nd ks'] & -> & Hin). by exists nd.
Qed.

End lookup_facts.

(** X8: on a new ring with one node added, its weight being the number
    of its points, [get] returns that node for every key. *)
Theorem single_node_ring {node : Type} `{EqDecision node}
    (range : option Z) (nd : node) (n : option nat)
    (points : option (list Z)) (random : nat -> Z) (r : ring node)
    (name : JS.str) :
  matched (Add nd n points random) ->
  Z.of_nat (or_1 n) <= 2 ^ 31 ->
  add (ConsistentHash range) nd n points random = Ok r ->
  exists r', get r name = Ok (r', Node nd).
Proof.
  intros Hm Hsize Hadd.
  apply add_fields in Hadd as (pts & Hpts & _ & Hk & Hmap & Hkeys & _ & _ & Hkc).
  assert (Hlen : length pts = or_1 n).
  { destruct points as [p|]; simpl in Hm; by subst. }
  assert (Hone : (1 <= or_1 n)%nat) by (destruct n as [[|k]|]; simpl; lia).
  assert (Htotal : points_total r = or_1 n).
  { unfold points_total. rewrite Hk. simpl. lia. }
  destruct (get_resolves r name) as (v & [Hv _] & Hget).
  { by left. }
  { by rewrite Htotal. }
  { rewrite Hkc. simpl. lia. }
  { lia. }
  rewrite Hk in Hv. simpl in Hv. rewrite app_nil_r in Hv.
  apply list_elem_of_lookup in Hv as [j Hj].
  eexists. rewrite Hget. do 2 f_equal. apply keyMap_get_node.
  rewrite Hmap, <- Hj. apply map_points_inside.
  apply lookup_lt_Some in Hj. lia.
Qed.

Lemma single_node_ring_witness :
  exists r r',
    add (ConsistentHash None) "A"%string (Some 3%nat) None
      (fun i => 200 * Z.of_nat i) = Ok r /\
    get r (of_ascii "some key") = Ok (r', Node "A"%string).
Proof.
  destruct (add (ConsistentHash None) "A"%string (Some 3%nat) None
              (fun i => 200 * Z.of_nat i)) as [r| |] eqn:Hadd;
    [|by vm_compute in Hadd..].
  destruct (single_node_ring None "A"%string (Some 3%nat) None _ r
              (of_ascii "some key") I ltac:(vm_compute; discriminate) Hadd)
    as [r' Hget].
  exists r, r'. split; [reflexivity|exact Hget].
Defined.

(** X9: on a ring whose control points each map to their own node,
    removing a node leaves every key that resolved to another node with
    that node. *)
Theorem removal_keeps_other_keys {node : Type} `{EqDecision node}
    (r r1 : ring node) (A C : node) (name : JS.str) :
  parallel r -> index_fresh r -> owned r ->
  keyCount r = Z.of_nat (points_total r) ->
  Z.of_nat (points_total r) <= 2 ^ 31 ->
  get r name = Ok (r1, Node A) -> A <> C ->
  exists r2 r3, remove r C = Ok r2 /\ get r2 name = Ok (r3, Node A).
Proof.
  intros Hpar Hfresh Howned Hcount Hsize Hget HAC.
  pose proof (get_node _ _ _ _ Hget) as Hkc.
  destruct (get_resolves r name Hfresh Hsize Hkc ltac:(lia))
    as (v & Hsucc & Hget').
  rewrite Hget' in Hget. injection Hget as _ Hval.
  apply keyMap_get_node in Hval.
  pose proof Hsucc as [Hv _].
  apply elem_of_concat in Hv as (ks & Hks & Hv).
  destruct (registration_of_points r ks Hpar Hks) as [nd Hreg].
  pose proof (Howned nd ks v Hreg Hv) as Hnd.
  assert (nd = A) as -> by congruence.
  destruct (remove_loop_spec (length (_nodes r)) r C Hpar ltac:(lia))
    as (r2 & Hrun & Hpar2 & Hperm & _ & _ & Hin & Hout).
  assert (Hmapped : mapped r).
  { intros p Hp. apply elem_of_concat in Hp as (ks' & Hks' & Hp).
    destruct (registration_of_points r ks' Hpar Hks') as [nd' Hreg'].
    exists nd'. by apply (Howned nd' ks'). }
  destruct (step_matched r (Remove C) r2 I Hpar (conj Hcount Hmapped) Hrun)
    as [Hcount2 _].
  pose proof (remove_loop_keyMap _ _ _ _ Hrun) as [Hmap2 Hrange2].
  assert (Hsub : forall ks', ks' ∈ _nodeKeys r2 -> ks' ∈ _nodeKeys r).
  { intros ks' Hks'.
    destruct (registration_of_points r2 ks' Hpar2 Hks') as [nd' Hreg'].
    rewrite Hperm in Hreg'. apply list_elem_of_filter in Hreg' as [_ Hreg'].
    by apply elem_of_zip_r in Hreg'. }
  assert (Hks2 : ks ∈ _nodeKeys r2).
  { apply (elem_of_zip_r A ks (_nodes r2)). fold (registrations r2).
    rewrite Hperm. apply list_elem_of_filter. split; [|done]. exact HAC. }
  assert (Hv2 : v ∈ concat (_nodeKeys r2)).
  { apply elem_of_concat. by exists ks. }
  assert (Hfresh2 : index_fresh r2).
  { destruct (decide (C ∈ _nodes r)) as [Hmem|Hmem].
    - left. by apply Hin.
    - by rewrite (Hout Hmem). }
  assert (Hpos2 : points_total r2 <> 0%nat).
  { rewrite points_total_concat. intros Hz. apply nil_length_inv in Hz.
    rewrite Hz in Hv2. by apply elem_of_nil in Hv2. }
  assert (Hle : (points_total r2 <= points_total r)%nat).
  { rewrite (points_total_registrations r Hpar),
      (points_total_registrations r2 Hpar2), Hperm.
    rewrite (sum_list_with_filter _ (of_node C) (not_of_node C)
               (registrations r)) by done.
    lia. }
  destruct (get_resolves r2 name Hfresh2 ltac:(lia) ltac:(lia) Hpos2)
    as (w & Hsucc2 & Hget2).
  assert (w = v) as ->.
  { apply (successor_unique (concat (_nodeKeys r2))
             (Z.rem (_hash name) (_range r2))); [done|].
    rewrite Hrange2.
    apply (successor_subset (concat (_nodeKeys r))); [|done|done].
    intros x Hx. apply elem_of_concat in Hx as (ks' & Hks' & Hx).
    apply elem_of_concat. exists ks'. split; [by apply Hsub|done]. }
  exists r2, (with_index r2). split; [done|].
  rewrite Hget2. do 2 f_equal. apply keyMap_get_node. by rewrite Hmap2.
Qed.

Lemma removal_keeps_other_keys_witness :
  exists r r1 r2 r3,
    ring_abc = Ok r /\
    get r (of_ascii "_") = Ok (r1, Node "A"%string) /\
    remove r "B"%string = Ok r2 /\
    get r2 (of_ascii "_") = Ok (r3, Node "A"%string).
Proof.
  destruct ring_abc as [r| |] eqn:Hr; [|by vm_compute in Hr..].
  vm_compute in Hr. injection Hr as Hr.
  assert (Howned : owned r).
  { rewrite <- Hr.
    intros nd ks p Hreg Hp. apply list_elem_of_In in Hreg. simpl in Hreg.
    destruct Hreg as [Hreg|[Hreg|[Hreg|[]]]]; injection Hreg as <- <-;
      apply list_elem_of_In in Hp; simpl in Hp; destruct Hp as [<-|[]];
      reflexivity. }
  destruct (get r (of_ascii "_")) as [[r1 v]| |] eqn:Hget;
    [|rewrite <- Hr in Hget; vm_compute in Hget; discriminate Hget..].
  assert (Hv : v = Node "A"%string).
  { rewrite <- Hr in Hget. vm_compute in Hget. injection Hget as _ <-. reflexivity. }
  subst v.
  destruct (removal_keeps_other_keys r r1 "A"%string "B"%string (of_ascii "_")
              ltac:(rewrite <- Hr; reflexivity)
              ltac:(rewrite <- Hr; left; reflexivity) Howned
              ltac:(rewrite <- Hr; reflexivity)
              ltac:(rewrite <- Hr; vm_compute; discriminate)
              Hget ltac:(discriminate))
    as (r2 & r3 & Hrem & Hget2).
  exists r, r1, r2, r3.
  split; [reflexivity|]. split; [exact Hget|]. split; [exact Hrem|exact Hget2].
Defined.

(** X10: adding a node whose weight is the number of its points moves a
    key to the new node or leaves it where it was. *)
Theorem addition_moves_keys_to_new_node {node : Type} `{EqDecision node}
    (r r1 r' : ring node) (A D : node) (n : option nat)
    (points : option (list Z)) (random : nat -> Z) (name : JS.str) :
  index_fresh r -> 0 <= keyCount r ->
  matched (Add D n points random) ->
  add r D n points random = Ok r' ->
  Z.of_nat (points_total r') <= 2 ^ 31 ->
  get r name = Ok (r1, Node A) ->
  exists r2 v, get r' name = Ok (r2, Node v) /\ (v = A \/ v = D).
Proof.
  intros Hfresh Hnn Hm Hadd Hsize Hget.
  apply add_fields in Hadd
    as (pts & Hpts & _ & Hk & Hmap & Hkeys & Hrange & _ & Hkc).
  assert (Hlen : length pts = or_1 n).
  { destruct points as [p|]; simpl in Hm; by subst. }
  assert (Hone : (1 <= or_1 n)%nat) by (destruct n as [[|k]|]; simpl; lia).
  assert (Htotal : points_total r' = (points_total r + or_1 n)%nat).
  { unfold points_total. rewrite Hk, sum_list_with_app. simpl. lia. }
  destruct (get_resolves r' name) as (w & Hsucc' & Hget').
  { by left. }
  { done. }
  { lia. }
  { lia. }
  exists (with_index r'). rewrite Hget'.
  assert (Hcat : forall x, x ∈ concat (_nodeKeys r') <->
                   x ∈ concat (_nodeKeys r) \/ x ∈ pts).
  { intros x. rewrite Hk, concat_app, elem_of_app. simpl. by rewrite app_nil_r. }
  destruct (decide (w ∈ pts)) as [Hw|Hw].
  - exists D. split; [|by right]. do 2 f_equal. apply keyMap_get_node.
    apply list_elem_of_lookup in Hw as [j Hj].
    rewrite Hmap, <- Hj. apply map_points_inside.
    apply lookup_lt_Some in Hj. lia.
  - exists A. split; [|by left]. do 2 f_equal. apply keyMap_get_node.
    pose proof Hsucc' as [Hw' _]. apply Hcat in Hw' as [Hw'|Hw']; [|done].
    assert (Hpos : points_total r <> 0%nat).
    { rewrite points_total_concat. intros Hz. apply nil_length_inv in Hz.
      rewrite Hz in Hw'. by apply elem_of_nil in Hw'. }
    pose proof (get_node _ _ _ _ Hget) as Hkc0.
    destruct (get_resolves r name Hfresh ltac:(lia) Hkc0 Hpos)
      as (v & Hsucc & Hget0).
    rewrite Hget0 in Hget. injection Hget as _ Hval.
    apply keyMap_get_node in Hval.
    rewrite Hrange in Hsucc'.
    destruct (successor_added _ pts _ _ v w Hcat Hsucc Hsucc') as [->|Hin];
      [|done].
    rewrite Hmap, map_points_outside; [done|].
    intros j _ Hj. apply Hw. by eapply list_elem_of_lookup_2.
Qed.

Lemma addition_moves_keys_to_new_node_witness :
  exists r r1 r' r2 v,
    ring_abc = Ok r /\
    get r (of_ascii "_") = Ok (r1, Node "A"%string) /\
    add r "D"%string (Some 1%nat) (Some [97]) (fun _ => 0) = Ok r' /\
    get r' (of_ascii "_") = Ok (r2, Node v) /\
    (v = "A"%string \/ v = "D"%string).
Proof.
  destruct ring_abc as [r| |] eqn:Hr; [|by vm_compute in Hr..].
  vm_compute in Hr. injection Hr as Hr.
  destruct (get r (of_ascii "_")) as [[r1 v0]| |] eqn:Hget;
    [|rewrite <- Hr in Hget; vm_compute in Hget; discriminate Hget..].
  assert (Hv : v0 = Node "A"%string).
  { rewrite <- Hr in Hget. vm_compute in Hget. injection Hget as _ <-. reflexivity. }
  subst v0.
  destruct (add r "D"%string (Some 1%nat) (Some [97]) (fun _ => 0))
    as [r'| |] eqn:Hadd;
    [|rewrite <- Hr in Hadd; vm_compute in Hadd; discriminate Hadd..].
  assert (Hsize : Z.of_nat (points_total r') <= 2 ^ 31).
  { rewrite <- Hr in Hadd. vm_compute in Hadd. injection Hadd as <-.
    vm_compute. discriminate. }
  destruct (addition_moves_keys_to_new_node r r1 r' "A"%string "D"%string
              (Some 1%nat) (Some [97]) (fun _ => 0) (of_ascii "_")
              ltac:(rewrite <- Hr; left; reflexivity)
              ltac:(rewrite <- Hr; vm_compute; discriminate) eq_refl
              Hadd Hsize Hget)
    as (r2 & v & Hget' & Hv).
  exists r, r1, r', r2, v.
  split; [reflexivity|]. split; [exact Hget|]. split; [exact Hadd|].
  split; [exact Hget'|exact Hv].
Defined.

(** ** The allocator, the search and the hash once more *)

Lemma collides_free {V} (keyMap : gmap (option Z) V) (points : list Z) (key : Z) :
  collides keyMap points key = false -> keyMap !! Some key = None.
Proof.
  unfold collides. intros Hc. apply orb_false_iff in Hc as [Hc _].
  by destruct (keyMap !! Some key).
Qed.

(** The points that an allocation adds are draws of the call, and they
    are free in the map while the attempt count is below ten. *)
Lemma allocate_points {V} (keyMap : gmap (option Z) V) (random : nat -> Z) n :
  forall pos attemptCount points res pos' attemptCount',
    allocate n keyMap random pos attemptCount points = Ok (res, pos', attemptCount') ->
    exists new,
      res = points ++ new /\ length new = n /\
      (attemptCount <= attemptCount')%nat /\ (pos + n <= pos')%nat /\
      (forall p, p ∈ new -> exists q, (pos <= q < pos')%nat /\ p = random q) /\
      ((attemptCount' < 10)%nat -> forall p, p ∈ new -> keyMap !! Some p = None).
Proof.
  induction n as [|n IH]; intros pos a points res pos' a' Hal.
  - simpl in Hal. simplify_eq. exists []. rewrite app_nil_r.
    split; [done|]. split; [done|]. split; [done|]. split; [lia|]. split.
    + intros p Hp. by apply elem_of_nil in Hp.
    + intros _ p Hp. by apply elem_of_nil in Hp.
  - destruct (draw_spec keyMap points random 10 pos a ltac:(lia))
      as (key & pos1 & a1 & Hd & Hpos & Hkey & _ & _ & Hacc).
    cbn [allocate] in Hal. rewrite Hd in Hal. cbn [mbind result_bind] in Hal.
    apply IH in Hal as (new & -> & Hlen & Ha & Hp1 & Hdraws & Hfree).
    exists (key :: new). rewrite <- app_assoc. simpl.
    split; [done|]. split; [by rewrite Hlen|].
    assert (Haa : (a <= a1)%nat) by (destruct Hacc as [[_ ->]|(_ & -> & _)]; lia).
    split; [lia|]. split; [lia|]. split.
    + intros p Hp. apply elem_of_cons in Hp as [->|Hp].
      * exists (pred pos1). split; [lia|done].
      * destruct (Hdraws p Hp) as (q & Hq & ->). exists q. split; [lia|done].
    + intros Hten p Hp. apply elem_of_cons in Hp as [->|Hp]; [|by apply Hfree].
      destruct Hacc as [[Hc _]|(_ & _ & Hge)]; [|lia].
      by eapply collides_free.
Qed.

(** X11: [_makeControlPoints(n)] always returns, with [n] points, each of
    them one of the first [n + 9] draws of the call. *)
Theorem makeControlPoints_draws {node : Type} `{EqDecision node}
    (r : ring node) (n : nat) (random : nat -> Z) :
  exists points,
    _makeControlPoints r n random = Ok points /\ length points = n /\
    forall p, p ∈ points -> exists q, (q < n + 9)%nat /\ p = random q.
Proof.
  unfold _makeControlPoints.
  destruct (allocate_spec (_keyMap r) random n 0 0 [])
    as (new & pos' & a' & Hal & _ & _ & _ & Hbound).
  pose proof (allocate_points _ _ _ _ _ _ _ _ _ Hal)
    as (new' & Hnew & Hlen & _ & _ & Hdraws & _).
  rewrite Hal. simpl in *. subst new'. exists new.
  split; [done|]. split; [done|].
  intros p Hp. destruct (Hdraws p Hp) as (q & Hq & ->).
  exists q. split; [lia|done].
Qed.

(** X12: when a batch ends with the attempt count below ten, none of the
    points it returns was a key of the map. *)
Theorem allocate_avoids_used_points {V : Type}
    (keyMap : gmap (option Z) V) (random : nat -> Z) (n : nat)
    (points : list Z) (pos attemptCount : nat) :
  allocate n keyMap random 0 0 [] = Ok (points, pos, attemptCount) ->
  (attemptCount < 10)%nat ->
  forall p, p ∈ points -> keyMap !! Some p = None.
Proof.
  intros Hal Hten p Hp.
  apply allocate_points in Hal as (new & -> & _ & _ & _ & _ & Hfree).
  by apply Hfree.
Qed.

Lemma allocate_avoids_used_points_witness :
  allocate 3 (<[Some 7 := "A"%string]> (<[Some 9 := "B"%string]> ∅))
    (fun i => 7 + Z.of_nat i) 0 0 [] = Ok ([8; 10; 11], 5%nat, 2%nat) /\
  (<[Some 7 := "A"%string]> (<[Some 9 := "B"%string]> ∅) : gmap (option Z) string)
    !! Some 10 = None.
Proof.
  assert (Hal : allocate 3
            (<[Some 7 := "A"%string]> (<[Some 9 := "B"%string]> ∅))
            (fun i => 7 + Z.of_nat i) 0 0 [] = Ok ([8; 10; 11], 5%nat, 2%nat))
    by reflexivity.
  split; [exact Hal|].
  apply (allocate_avoids_used_points _ _ _ _ _ _ Hal ltac:(lia)).
  apply (bool_decide_unpack _). vm_compute. exact I.
Defined.

Lemma bisect_returns (a : list Z) (key : Z) :
  Z.of_nat (length a) <= 2 ^ 31 ->
  forall (fuel : nat) (i j : Z),
    0 <= i -> j < Z.of_nat (length a) -> j - i <= Z.of_nat fuel ->
    exists i' j', bisect fuel a key i j = Ok (i', j') /\ 0 <= i' <= Z.max i j.
Proof.
  intros Hlen fuel.
  induction fuel as [|fuel IH]; intros i j Hi Hj Hfuel; simpl.
  - destruct (Z.gtb_spec (j - i) gap) as [Hgt|Hle]; [unfold gap in Hgt; lia|].
    exists i, j. split; [done|lia].
  - destruct (Z.gtb_spec (j - i) gap) as [Hgt|Hle].
    2:{ exists i, j. split; [done|lia]. }
    unfold gap in Hgt. rewrite shru_half by lia.
    assert (Hmid : i <= (i + j) / 2 < j) by (split; Z.div_mod_to_equations; lia).
    set (mid := (i + j) / 2) in *.
    destruct (js_lt (aget a mid) key).
    + destruct (IH (mid + 1) j) as (i' & j' & Hb & Hi'); [lia..|].
      exists i', j'. split; [done|lia].
    + destruct (IH i mid) as (i' & j' & Hb & Hi'); [lia..|].
      exists i', j'. split; [done|lia].
Qed.

Lemma scan_found (a : list Z) (key : Z) (steps : nat) : forall (i i2 : Z),
  0 <= i -> scan steps a key i = Some i2 ->
  i <= i2 < i + Z.of_nat steps /\ exists x, a !! Z.to_nat i2 = Some x /\ key <= x.
Proof.
  induction steps as [|steps IH]; intros i i2 Hi Hscan; simpl in Hscan; [done|].
  destruct (aget a i) as [x|] eqn:Hx; simpl in Hscan.
  - destruct (Z.geb_spec x key) as [Hge|Hlt].
    + simplify_eq. split; [lia|]. exists x. rewrite aget_lookup in Hx by done.
      split; [done|lia].
    + apply IH in Hscan as [Hb Hx2]; [|lia]. split; [lia|done].
  - apply IH in Hscan as [Hb Hx2]; [|lia]. split; [lia|done].
Qed.

(** X13: on any array of at most 2^31 numbers, sorted or not, [_absearch]
    returns -1 when the array is empty and an index of the array
    otherwise; an index other than 0 holds an element that is at least the
    key. *)
Theorem absearch_in_bounds (a : list Z) (key : Z) :
  Z.of_nat (length a) <= 2 ^ 31 ->
  exists i,
    _absearch a key = Ok i /\
    (a = [] -> i = -1) /\
    (a <> [] -> 0 <= i < Z.of_nat (length a)) /\
    (0 < i -> exists x, a !! Z.to_nat i = Some x /\ key <= x).
Proof.
  intros Hlen.
  destruct (bisect_returns a key Hlen (length a) 0 (Z.of_nat (length a) - 1))
    as (i' & j' & Hbis & Hi'); [lia..|].
  unfold _absearch. rewrite Hbis. cbn [mbind result_bind].
  destruct (scan _ a key i') as [i2|] eqn:Hscan.
  - apply scan_found in Hscan as [Hb Hx]; [|lia].
    exists i2. split; [done|]. split; [|split]; [|lia|done].
    intros ->. simpl in *. lia.
  - eexists. split; [done|]. split; [|split].
    + by intros ->.
    + intros Hne. destruct a; [done|]. simpl. lia.
    + destruct a; simpl; lia.
Qed.

Lemma absearch_in_bounds_witness :
  exists i, _absearch forty_unsorted 39 = Ok i /\
    0 <= i < Z.of_nat (length forty_unsorted).
Proof.
  destruct (absearch_in_bounds forty_unsorted 39 ltac:(vm_compute; discriminate))
    as (i & Hi & _ & Hb & _).
  exists i. split; [exact Hi|]. apply Hb. discriminate.
Defined.

(** X14: the hash of a string never has one of the bits 24 to 27 set: it
    is below 2^24, or, when the last addition carried into bit 28, between
    2^28 and 2^28 + 2^24. *)
Theorem hash_range (s : JS.str) :
  JS.wf_str s ->
  Z.land (_hash s) 0xf000000 = 0 /\
  (0 <= _hash s < 2 ^ 24 \/ 2 ^ 28 <= _hash s < 2 ^ 28 + 2 ^ 24).
Proof.
  intros Hwf.
  destruct (pjw_loop_rolling s 0 Hwf hash_inv_0) as [_ Hinv].
  fold (_hash s) in Hinv. pose proof Hinv as [[Hlo Hhi] Hmask].
  split; [done|].
  destruct (Z.lt_ge_cases (_hash s) (2 ^ 28)) as [Hlt|Hge].
  - left. split; [done|]. apply below_pow2_of_bits; [lia|done|].
    intros n Hn. destruct (Z.lt_ge_cases n 28) as [Hn28|Hn28].
    + by apply hash_inv_bits.
    + apply (testbit_above _ 28); lia.
  - right. split; [done|].
    assert (Hmod : _hash s mod 2 ^ 28 = _hash s - 2 ^ 28).
    { symmetry. apply (Z.mod_unique_pos _ _ 1). lia. lia. }
    assert (Hsmall : _hash s mod 2 ^ 28 < 2 ^ 24).
    { apply below_pow2_of_bits; [lia|apply Z.mod_pos_bound; lia|].
      intros n Hn. destruct (Z.lt_ge_cases n 28) as [Hn28|Hn28].
      - rewrite Z.mod_pow2_bits_low by lia. by apply hash_inv_bits.
      - apply Z.mod_pow2_bits_high. lia. }
    lia.
Qed.

Lemma hash_range_witness :
  _hash [3487; 37257; 5113; 17720; 5374; 58447; 36601] = 268458793 /\
  2 ^ 28 <= 268458793 /\
  Z.land (_hash [3487; 37257; 5113; 17720; 5374; 58447; 36601]) 0xf000000 = 0.
Proof.
  split; [reflexivity|]. split; [vm_compute; discriminate|].
  apply hash_range.
  unfold JS.wf_str, JS.code_unit.
  apply (bool_decide_unpack _). vm_compute. exact I.
Defined.

(** ** The bit-flip tables of the constructor *)

Lemma flipit_bytes :
  Forall (fun b =>
            (0 <= flipit b < 256) /\ flipit (flipit b) = b /\
            Forall (fun k => Z.testbit (flipit b) k = Z.testbit b (7 - k))
                   (seqZ 0 8))
         (seqZ 0 256).
Proof. apply (bool_decide_unpack _). vm_compute. exact I. Qed.

Lemma flipit_nibbles :
  Forall (fun b =>
            flipit b = 16 * default 0 (_flip4Map !! Z.to_nat (b mod 16))
                       + default 0 (_flip4Map !! Z.to_nat (b / 16)))
         (seqZ 0 256) /\
  Forall (fun i => (x ← _flip4Map !! Z.to_nat i; _flip4Map !! Z.to_nat x) = Some i)
         (seqZ 0 16).
Proof. split; apply (bool_decide_unpack _); vm_compute; exact I. Qed.

Lemma flipit_byte (b : Z) :
  0 <= b < 256 ->
  0 <= flipit b < 256 /\ flipit (flipit b) = b /\
  forall k, 0 <= k < 8 -> Z.testbit (flipit b) k = Z.testbit b (7 - k).
Proof.
  intros Hb. pose proof flipit_bytes as Hall. rewrite Forall_forall in Hall.
  destruct (Hall b) as (Hr & Hinv & Hbits); [apply elem_of_seqZ; lia|].
  split; [done|]. split; [done|].
  intros k Hk. rewrite Forall_forall in Hbits. apply Hbits.
  apply elem_of_seqZ. lia.
Qed.

Lemma flip8_fill_lookup steps : forall (i : nat) (tbl : list (option Z)) (j : nat),
  (i + steps <= length tbl)%nat ->
  flip8_fill steps i tbl !! j =
    if decide (i <= j < i + steps)%nat then Some (Some (flipit (Z.of_nat j)))
    else tbl !! j.
Proof.
  induction steps as [|steps IH]; intros i tbl j Hlen; simpl.
  - case_decide; [lia|done].
  - rewrite IH by (rewrite length_insert; lia).
    destruct (decide (j = i)) as [->|Hne].
    + rewrite list_lookup_insert_eq by lia.
      repeat case_decide; try lia; done.
    + rewrite list_lookup_insert_ne by done.
      repeat case_decide; try lia; done.
Qed.

Lemma flip8_init_table (i : nat) :
  (i < 256)%nat ->
  flip8_init flip8_new !! i = Some (Some (flipit (Z.of_nat i))) /\
  length (flip8_init flip8_new) = 256%nat.
Proof.
  intros Hi. unfold flip8_init. rewrite decide_False by done. split.
  - rewrite flip8_fill_lookup by (simpl; lia). by rewrite decide_True by lia.
  - reflexivity.
Qed.

(** X15: [flipit] reverses the eight bits of a byte: the result is a
    byte, bit [k] of it is bit [7 - k] of the argument, and flipping twice
    gives the byte back. *)
Theorem flipit_reverses_bits (b : Z) :
  0 <= b < 256 ->
  0 <= flipit b < 256 /\
  (forall k, 0 <= k < 8 -> Z.testbit (flipit b) k = Z.testbit b (7 - k)) /\
  flipit (flipit b) = b.
Proof.
  intros Hb. destruct (flipit_byte b Hb) as (Hr & Hinv & Hbits). done.
Qed.

Lemma flipit_reverses_bits_witness :
  0 <= flipit 0x16 < 256 /\ flipit 0x16 = 0x68 /\ flipit (flipit 0x16) = 0x16.
Proof.
  destruct (flipit_reverses_bits 0x16 ltac:(lia)) as (Hr & _ & Hinv).
  split; [exact Hr|]. split; [reflexivity|exact Hinv].
Defined.

(** X16: the constructor fills the shared table of 256 entries with
    [flipit] unless its entry 1 is 0x80 already, so that after one
    construction a further one leaves the table as it is. *)
Theorem flip8_init_once (tbl : list (option Z)) :
  length tbl = 256%nat ->
  (tbl !! 1%nat <> Some (Some 0x80) ->
   forall i, (i < 256)%nat ->
     flip8_init tbl !! i = Some (Some (flipit (Z.of_nat i)))) /\
  (tbl !! 1%nat = Some (Some 0x80) -> flip8_init tbl = tbl) /\
  flip8_init (flip8_init tbl) = flip8_init tbl.
Proof.
  intros Hlen.
  assert (Hfill : tbl !! 1%nat <> Some (Some 0x80) ->
            forall i, (i < 256)%nat ->
              flip8_init tbl !! i = Some (Some (flipit (Z.of_nat i)))).
  { intros Hne i Hi. unfold flip8_init. rewrite decide_False by done.
    rewrite flip8_fill_lookup by lia. by rewrite decide_True by lia. }
  assert (Hskip : forall t : list (option Z),
            t !! 1%nat = Some (Some 0x80) -> flip8_init t = t).
  { intros t Ht. unfold flip8_init. by rewrite decide_True. }
  split; [done|]. split; [apply Hskip|].
  destruct (decide (tbl !! 1%nat = Some (Some 0x80))) as [Heq|Hne].
  - by rewrite !(Hskip tbl Heq).
  - apply Hskip. rewrite Hfill; [reflexivity|done|lia].
Qed.

Lemma flip8_init_once_witness :
  flip8_init flip8_new !! 3%nat = Some (Some 0xc0) /\
  flip8_init (flip8_init flip8_new) = flip8_init flip8_new.
Proof.
  destruct (flip8_init_once flip8_new eq_refl) as (Hfill & _ & Hagain).
  split; [|exact Hagain].
  rewrite Hfill; [reflexivity|discriminate|lia].
Defined.

(** X17: [_flip4Map] flips the four bits of a nibble: looked up twice it
    gives the nibble back, and [flipit] of a byte is the flipped low
    nibble above the flipped high nibble. *)
Theorem flip4_halves (b : Z) :
  0 <= b < 256 ->
  flipit b = 16 * default 0 (_flip4Map !! Z.to_nat (b mod 16))
             + default 0 (_flip4Map !! Z.to_nat (b / 16)) /\
  (b < 16 ->
   (x ← _flip4Map !! Z.to_nat b; _flip4Map !! Z.to_nat x) = Some b).
Proof.
  intros Hb. destruct flipit_nibbles as [Hhalves Htwice].
  rewrite Forall_forall in Hhalves, Htwice. split.
  - apply Hhalves. apply elem_of_seqZ. lia.
  - intros Hlt. apply Htwice. apply elem_of_seqZ. lia.
Qed.

Lemma flip4_halves_witness :
  flipit 0x16 = 16 * default 0 (_flip4Map !! 6%nat) + default 0 (_flip4Map !! 1%nat).
Proof.
  exact (proj1 (flip4_halves 0x16 ltac:(lia))).
Defined.

(** ** The second hash *)

Lemma lor_below a b k :
  0 <= k -> 0 <= a < 2 ^ k -> 0 <= b < 2 ^ k -> 0 <= Z.lor a b < 2 ^ k.
Proof.
  intros Hk Ha Hb.
  assert (Hnn : 0 <= Z.lor a b) by (apply Z.lor_nonneg; lia).
  split; [done|]. apply below_pow2_of_bits; [done..|].
  intros n Hn.
  by rewrite Z.lor_spec, (testbit_above a k n), (testbit_above b k n).
Qed.

Lemma lor_disjoint a b : Z.land a b = 0 -> Z.lor a b = a + b.
Proof. intros Hd. pose proof (Z.add_lor_land a b). lia. Qed.

Lemma to_int32_lor a b :
  0 <= a < 2 ^ 31 -> 0 <= b < 2 ^ 31 -> js_or a b = Z.lor a b.
Proof.
  intros Ha Hb. unfold js_or. rewrite (to_int32_small a), (to_int32_small b) by lia.
  apply to_int32_small. apply (lor_below a b 31); lia.
Qed.

Lemma js_and_small a b :
  0 <= a < 2 ^ 31 -> 0 <= b < 2 ^ 31 -> JS.and a b = Z.land a b.
Proof.
  intros Ha Hb. unfold JS.and. rewrite (to_int32_small a), (to_int32_small b) by lia.
  apply to_int32_small. apply (land_below a b 31); lia.
Qed.

Lemma js_shl_small a k :
  0 <= k < 32 -> 0 <= a -> a * 2 ^ k < 2 ^ 31 -> JS.shl a k = a * 2 ^ k.
Proof.
  intros Hk Ha Hb.
  assert (Hpow : 1 <= 2 ^ k) by (apply (Z.pow_le_mono_r 2 0 k); lia).
  unfold JS.shl. rewrite (to_int32_small a) by nia.
  rewrite (to_uint32_small k) by lia.
  replace (Z.land k 31) with k.
  - rewrite Z.shiftl_mul_pow2 by lia. apply to_int32_small. nia.
  - change 31 with (Z.ones 5). rewrite Z.land_ones by lia.
    symmetry. apply Z.mod_small. change (2 ^ 5) with 32. lia.
Qed.

Lemma js_shru_small a k :
  0 <= k < 32 -> 0 <= a < 2 ^ 32 -> JS.shru a k = a / 2 ^ k.
Proof.
  intros Hk Ha. unfold JS.shru. rewrite (to_uint32_small a), (to_uint32_small k) by lia.
  replace (Z.land k 31) with k.
  - by rewrite Z.shiftr_div_pow2 by lia.
  - change 31 with (Z.ones 5). rewrite Z.land_ones by lia.
    symmetry. apply Z.mod_small. change (2 ^ 5) with 32. lia.
Qed.

(** The mask [0xf80000] selects bits 19 to 23. *)
Lemma crc_mask_bits n :
  Z.testbit 0xf80000 n = (19 <=? n) && (n <? 24).
Proof.
  change 0xf80000 with (Z.shiftl 31 19).
  destruct (Z.leb_spec 19 n) as [H19|H19]; simpl.
  - rewrite Z.shiftl_spec by lia.
    destruct (Z.ltb_spec n 24) as [H24|H24].
    + assert (Hc : n - 19 = 0 \/ n - 19 = 1 \/ n - 19 = 2 \/ n - 19 = 3
                   \/ n - 19 = 4) by lia.
      destruct Hc as [-> | [-> | [-> | [-> | ->]]]]; reflexivity.
    + apply (testbit_above 31 5); lia.
  - destruct (Z.lt_ge_cases n 0) as [Hneg|Hpos]; [by apply Z.testbit_neg_r|].
    by apply Z.shiftl_spec_low.
Qed.

(** A 24-bit word splits at bit 19 under the mask. *)
Lemma crc_split h :
  0 <= h < 2 ^ 24 ->
  Z.land h (Z.lnot 0xf80000) = h mod 2 ^ 19 /\
  Z.land h 0xf80000 = h / 2 ^ 19 * 2 ^ 19.
Proof.
  intros Hh.
  set (low := Z.land h (Z.lnot 0xf80000)). set (g := Z.land h 0xf80000).
  assert (Hlow : 0 <= low < 2 ^ 19).
  { assert (0 <= low) by (apply Z.land_nonneg; left; lia).
    split; [done|]. apply below_pow2_of_bits; [lia|done|].
    intros n Hn. unfold low. rewrite Z.land_spec, Z.lnot_spec, crc_mask_bits by lia.
    destruct (Z.leb_spec 19 n); [|lia].
    destruct (Z.ltb_spec n 24); simpl; [apply andb_false_r|].
    rewrite (testbit_above h 24 n) by lia. done. }
  assert (Hg : 0 <= g) by (apply Z.land_nonneg; left; lia).
  assert (Hsum : h = low + g).
  { unfold low, g. rewrite <- Z.ldiff_land, <- lor_disjoint.
    - by rewrite Z.lor_ldiff_and.
    - apply Z.bits_inj'. intros n Hn.
      rewrite Z.bits_0, !Z.land_spec, Z.ldiff_spec.
      by destruct (Z.testbit h n), (Z.testbit 0xf80000 n). }
  assert (Hgmod : g mod 2 ^ 19 = 0).
  { rewrite <- Z.land_ones by lia. apply Z.bits_inj'. intros n Hn.
    rewrite Z.bits_0. unfold g. rewrite !Z.land_spec, crc_mask_bits.
    destruct (Z.lt_ge_cases n 19).
    - destruct (Z.leb_spec 19 n); [lia|]. simpl. by rewrite andb_false_r.
    - rewrite Z.ones_spec_high by lia. apply andb_false_r. }
  fold low g. split.
  - apply (Z.mod_unique_pos h (2 ^ 19) (g / 2 ^ 19)); [done|].
    rewrite Hsum at 1. Z.div_mod_to_equations. lia.
  - assert (Hq : h / 2 ^ 19 = g / 2 ^ 19).
    { symmetry. apply (Z.div_unique_pos h (2 ^ 19) (g / 2 ^ 19) low); [done|].
      rewrite Hsum at 1. Z.div_mod_to_equations. lia. }
    rewrite Hq. Z.div_mod_to_equations. lia.
Qed.

Lemma crc_low_part h :
  0 <= h < 2 ^ 24 -> JS.and h (js_not 0xf80000) = h mod 2 ^ 19.
Proof.
  intros Hh. destruct (crc_split h Hh) as [Hlow _].
  assert (Hm : 0 <= h mod 2 ^ 19 < 2 ^ 19) by (apply Z.mod_pos_bound; lia).
  assert (Hn : JS.to_int32 (js_not 0xf80000) = Z.lnot 0xf80000)
    by (vm_compute; reflexivity).
  unfold JS.and. rewrite (to_int32_small h) by lia.
  rewrite Hn, Hlow. apply to_int32_small. lia.
Qed.

Lemma crc_high_part h :
  0 <= h < 2 ^ 24 -> JS.shru (JS.and h 0xf80000) 19 = h / 2 ^ 19.
Proof.
  intros Hh. destruct (crc_split h Hh) as [_ Hg].
  assert (Hq : 0 <= h / 2 ^ 19 < 32).
  { split; [apply Z.div_pos; lia|]. apply Z.div_lt_upper_bound; lia. }
  rewrite (js_and_small h 0xf80000) by lia. rewrite Hg.
  rewrite (js_shru_small (h / 2 ^ 19 * 2 ^ 19) 19) by lia.
  apply Z.div_mul. lia.
Qed.

Lemma rotl24_5_lor h :
  0 <= h < 2 ^ 24 ->
  Z.lor (h mod 2 ^ 19 * 2 ^ 5) (h / 2 ^ 19) = rotl24_5 h /\
  0 <= rotl24_5 h < 2 ^ 24.
Proof.
  intros Hh.
  assert (Hm : 0 <= h mod 2 ^ 19 < 2 ^ 19) by (apply Z.mod_pos_bound; lia).
  assert (Hq : 0 <= h / 2 ^ 19 < 32).
  { split; [apply Z.div_pos; lia|]. apply Z.div_lt_upper_bound; lia. }
  assert (Hrot : Z.lor (h mod 2 ^ 19 * 2 ^ 5) (h / 2 ^ 19) = rotl24_5 h).
  { rewrite lor_disjoint.
    - unfold rotl24_5. f_equal.
      replace (2 ^ 24) with (2 ^ 19 * 32) by (vm_compute; reflexivity).
      replace (2 ^ 5) with 32 by (vm_compute; reflexivity).
      by rewrite Z.mul_mod_distr_r by lia.
    - apply Z.bits_inj'. intros n Hn. rewrite Z.bits_0, Z.land_spec.
      destruct (Z.lt_ge_cases n 5).
      + rewrite Z.mul_pow2_bits_low by lia. done.
      + rewrite (testbit_above (h / 2 ^ 19) 5 n) by lia. apply andb_false_r. }
  split; [done|]. rewrite <- Hrot. apply lor_below; lia.
Qed.

(** One round of [_hash2] rotates the 24-bit accumulator left by five
    bits and xors the character code into it. *)
Lemma crc_body_rotate h c :
  0 <= h < 2 ^ 24 -> JS.code_unit c ->
  crc_body h c = Z.lxor (rotl24_5 h) c /\ 0 <= crc_body h c < 2 ^ 24.
Proof.
  intros Hh Hc. unfold JS.code_unit in Hc.
  assert (Hm : 0 <= h mod 2 ^ 19 < 2 ^ 19) by (apply Z.mod_pos_bound; lia).
  assert (Hq : 0 <= h / 2 ^ 19 < 32).
  { split; [apply Z.div_pos; lia|]. apply Z.div_lt_upper_bound; lia. }
  destruct (rotl24_5_lor h Hh) as [Hrot Hr].
  unfold crc_body. rewrite (crc_high_part h Hh), (crc_low_part h Hh).
  rewrite (js_shl_small (h mod 2 ^ 19) 5) by lia.
  rewrite to_int32_lor by lia.
  rewrite Hrot.
  assert (Hx : 0 <= Z.lxor (rotl24_5 h) c < 2 ^ 24) by (apply lxor_below; lia).
  assert (Hxor : JS.xor (rotl24_5 h) c = Z.lxor (rotl24_5 h) c).
  { unfold JS.xor. rewrite (to_int32_small (rotl24_5 h)), (to_int32_small c) by lia.
    apply to_int32_small. lia. }
  by rewrite Hxor.
Qed.

Lemma fold_left_cons {A B} (f : A -> B -> A) (x : B) (l : list B) (a : A) :
  fold_left f (x :: l) a = fold_left f l (f a x).
Proof. reflexivity. Qed.

Lemma fold_left_nil {A B} (f : A -> B -> A) (a : A) : fold_left f [] a = a.
Proof. reflexivity. Qed.

Lemma crc_loop_rotate s : forall h,
  JS.wf_str s -> 0 <= h < 2 ^ 24 ->
  crc_loop s h = fold_left (fun h c => Z.lxor (rotl24_5 h) c) s h /\
  0 <= crc_loop s h < 2 ^ 24.
Proof.
  unfold crc_loop.
  induction s as [|c s IH]; intros h Hwf Hh; [split; [reflexivity|exact Hh]|].
  apply Forall_cons in Hwf as [Hc Hwf].
  destruct (crc_body_rotate h c Hh Hc) as [Heq Hb].
  rewrite !fold_left_cons. cbv beta. rewrite <- Heq.
  apply IH; [exact Hwf|exact Hb].
Qed.

Lemma crc_loop_snoc s c h : crc_loop (s ++ [c]) h = crc_body (crc_loop s h) c.
Proof.
  unfold crc_loop. rewrite fold_left_app, fold_left_cons. apply fold_left_nil.
Qed.

Lemma flip8_get_filled (x : Z) :
  0 <= x < 256 -> flip8_get (flip8_init flip8_new) x = flipit x.
Proof.
  intros Hx. unfold flip8_get. destruct (Z.ltb_spec x 0); [lia|].
  destruct (flip8_init_table (Z.to_nat x)) as [Hfill _]; [lia|].
  rewrite Hfill. f_equal. lia.
Qed.

(** The last statement of [_hash2] reverses the 24 bits of a 24-bit word. *)
Lemma flip24_reverses h :
  0 <= h < 2 ^ 24 ->
  0 <= flip24 (flip8_init flip8_new) h < 2 ^ 24 /\
  forall k, 0 <= k < 24 ->
    Z.testbit (flip24 (flip8_init flip8_new) h) k = Z.testbit h (23 - k).
Proof.
  intros Hh. unfold flip24.
  assert (Hs8 : 0 <= h / 2 ^ 8 < 2 ^ 24).
  { split; [apply Z.div_pos; lia|]. apply Z.div_lt_upper_bound; lia. }
  assert (Hs16 : 0 <= h / 2 ^ 16 < 2 ^ 24).
  { split; [apply Z.div_pos; lia|]. apply Z.div_lt_upper_bound; lia. }
  rewrite (js_shru_small h 8), (js_shru_small h 16) by lia.
  rewrite !js_and_small by lia.
  change 0xff with (Z.ones 8). rewrite !Z.land_ones by lia.
  set (a := h mod 2 ^ 8). set (b := (h / 2 ^ 8) mod 2 ^ 8).
  set (c := (h / 2 ^ 16) mod 2 ^ 8).
  assert (Ha : 0 <= a < 256) by (apply Z.mod_pos_bound; lia).
  assert (Hb : 0 <= b < 256) by (apply Z.mod_pos_bound; lia).
  assert (Hc : 0 <= c < 256) by (apply Z.mod_pos_bound; lia).
  rewrite !flip8_get_filled by done.
  destruct (flipit_byte a Ha) as (Hfa & _ & Hbits_a).
  destruct (flipit_byte b Hb) as (Hfb & _ & Hbits_b).
  destruct (flipit_byte c Hc) as (Hfc & _ & Hbits_c).
  rewrite (js_shl_small (flipit a) 16), (js_shl_small (flipit b) 8) by lia.
  assert (Hab : 0 <= Z.lor (flipit a * 2 ^ 16) (flipit b * 2 ^ 8) < 2 ^ 24)
    by (apply lor_below; lia).
  rewrite (to_int32_lor (flipit a * 2 ^ 16)) by lia.
  rewrite to_int32_lor by lia.
  split; [apply lor_below; lia|].
  intros k Hk. rewrite !Z.lor_spec.
  rewrite <- !Z.shiftl_mul_pow2, !Z.shiftl_spec by lia.
  destruct (Z.lt_ge_cases k 8) as [Hk8|Hk8];
    [|destruct (Z.lt_ge_cases k 16) as [Hk16|Hk16]].
  - rewrite (Z.testbit_neg_r _ (k - 16)), (Z.testbit_neg_r _ (k - 8)) by lia.
    simpl. rewrite Hbits_c by lia. unfold c.
    rewrite Z.mod_pow2_bits_low, Z.div_pow2_bits by lia. f_equal. lia.
  - rewrite (Z.testbit_neg_r _ (k - 16)) by lia.
    rewrite (testbit_above (flipit c) 8 k) by lia.
    rewrite orb_false_r. simpl. rewrite Hbits_b by lia. unfold b.
    rewrite Z.mod_pow2_bits_low, Z.div_pow2_bits by lia. f_equal. lia.
  - rewrite (testbit_above (flipit c) 8 k) by lia.
    rewrite (testbit_above (flipit b) 8 (k - 8)) by lia.
    rewrite !orb_false_r. rewrite Hbits_a by lia. unfold a.
    rewrite Z.mod_pow2_bits_low by lia. f_equal. lia.
Qed.

Lemma hash2_bits (s : JS.str) :
  JS.wf_str s ->
  0 <= crc_loop s 0 < 2 ^ 24 /\
  crc_loop s 0 = fold_left (fun h c => Z.lxor (rotl24_5 h) c) s 0 /\
  0 <= _hash2 (flip8_init flip8_new) s < 2 ^ 24 /\
  forall k, 0 <= k < 24 ->
    Z.testbit (_hash2 (flip8_init flip8_new) s) k
    = Z.testbit (crc_loop s 0) (23 - k).
Proof.
  intros Hwf.
  destruct (crc_loop_rotate s 0 Hwf ltac:(lia)) as [Heq Hb].
  destruct (flip24_reverses (crc_loop s 0) Hb) as [Hr Hbits].
  split; [exact Hb|]. split; [exact Heq|]. split; [exact Hr|exact Hbits].
Qed.

Lemma eq_of_low_bits (x y : Z) (w : Z) :
  0 <= w -> 0 <= x < 2 ^ w -> 0 <= y < 2 ^ w ->
  (forall k, 0 <= k < w -> Z.testbit x k = Z.testbit y k) -> x = y.
Proof.
  intros Hw Hx Hy Hbits. apply Z.bits_inj'. intros n Hn.
  destruct (Z.lt_ge_cases n w) as [Hlt|Hge]; [apply Hbits; lia|].
  by rewrite (testbit_above x w n), (testbit_above y w n).
Qed.

(** X18: with the table that the constructor filled, [_hash2] of a string
    is a 24-bit number: the bit reversal of the accumulator that each
    character in turn rotates left by five bits, in 24 bits, and xors
    with its code; the empty string hashes to 0. *)
Theorem hash2_rotate_reverse (s : JS.str) :
  JS.wf_str s ->
  0 <= _hash2 (flip8_init flip8_new) s < 2 ^ 24 /\
  (forall k, 0 <= k < 24 ->
     Z.testbit (_hash2 (flip8_init flip8_new) s) k
     = Z.testbit (fold_left (fun h c => Z.lxor (rotl24_5 h) c) s 0) (23 - k)) /\
  _hash2 (flip8_init flip8_new) [] = 0.
Proof.
  intros Hwf. destruct (hash2_bits s Hwf) as (_ & Heq & Hr & Hbits).
  split; [exact Hr|]. split; [|vm_compute; reflexivity].
  intros k Hk. rewrite <- Heq. by apply Hbits.
Qed.

Lemma hash2_rotate_reverse_witness :
  0 <= _hash2 (flip8_init flip8_new) (of_ascii "hello") < 2 ^ 24 /\
  _hash2 (flip8_init flip8_new) (of_ascii "a") = 0x860000.
Proof.
  assert (Hwf : JS.wf_str (of_ascii "hello")).
  { unfold JS.wf_str, JS.code_unit.
    apply (bool_decide_unpack _). vm_compute. exact I. }
  split; [exact (proj1 (hash2_rotate_reverse _ Hwf))|vm_compute; reflexivity].
Defined.



(** ** Lookup on the rings that the operations build *)

(** X20: [get] returns [null] exactly when the point count is zero. *)
Theorem get_null_iff {node : Type} `{EqDecision node}
    (r : ring node) (name : JS.str) :
  (exists r', get r name = Ok (r', Null)) <-> keyCount r = 0.
Proof.
  split.
  - intros [r' Hget].
    destruct (Z.eq_dec (keyCount r) 0) as [|Hne]; [done|].
    unfold get in Hget. fold (with_index r) in Hget.
    destruct (with_index_fields r) as (_ & _ & _ & _ & _ & Hk).
    rewrite Hk in Hget.
    destruct (Z.eqb_spec (keyCount r) 0) as [|_]; [done|].
    destruct (_absearch _ _) as [i| |]; simpl in Hget; [|done..].
    unfold keyMap_get in Hget.
    destruct (_keyMap (with_index r) !! _); by simplify_eq.
  - intros Hk. exists (with_index r). by apply get_empty.
Qed.

(** X21: on a reachable ring with control points, at most 2^31 of them,
    and a point count other than zero, [get] returns the map's entry for
    the smallest registered point that is at least the hash of the key
    reduced by the range, or, when every point is below it, for the
    smallest point of all. *)
Theorem get_returns_successor {node : Type} `{EqDecision node}
    (range : option Z) (r : ring node) (name : JS.str) :
  reachable range r ->
  Z.of_nat (points_total r) <= 2 ^ 31 ->
  keyCount r <> 0 -> points_total r <> 0%nat ->
  exists v,
    successor (concat (_nodeKeys r)) (Z.rem (_hash name) (_range r)) v /\
    snd <$> get r name = Ok (keyMap_get (_keyMap r) (Some v)).
Proof.
  intros Hreach Hsize Hkc Htotal.
  destruct (reachable_invariant _ _ Hreach) as (_ & Hfresh & _).
  destruct (get_resolves r name Hfresh Hsize Hkc Htotal) as (v & Hsucc & Hget).
  exists v. split; [done|]. by rewrite Hget.
Qed.

Lemma get_returns_successor_witness :
  exists r v,
    ring_drawn = Ok r /\
    successor (concat (_nodeKeys r)) (Z.rem (_hash (of_ascii "key")) (_range r)) v /\
    snd <$> get r (of_ascii "key") = Ok (keyMap_get (_keyMap r) (Some v)).
Proof.
  destruct ring_drawn as [r| |] eqn:Hr; [|by vm_compute in Hr..].
  pose proof (run_reachable _ _ _ _ (reachable_new _) Hr) as Hreach.
  vm_compute in Hr. injection Hr as Hr.
  destruct (get_returns_successor None r (of_ascii "key") Hreach
              ltac:(rewrite <- Hr; vm_compute; discriminate)
              ltac:(rewrite <- Hr; vm_compute; discriminate)
              ltac:(rewrite <- Hr; vm_compute; discriminate))
    as (v & Hsucc & Hget).
  exists r, v. split; [reflexivity|]. split; [exact Hsucc|exact Hget].
Defined.

(** X22: when every [add] with explicit points has their number as its
    weight, the point count of the ring is the number of its registered
    control points and each of them has an entry in the map. *)
Theorem matched_ring_point_count {node : Type} `{EqDecision node}
    (range : option Z) (ops : list (op node)) (r : ring node) :
  Forall matched ops -> run (ConsistentHash range) ops = Ok r ->
  keyCount r = Z.of_nat (points_total r) /\
  (forall p, p ∈ concat (_nodeKeys r) -> is_Some (_keyMap r !! Some p)).
Proof.
  intros Hall Hrun.
  apply (run_matched range ops (ConsistentHash range) r); try done.
  - apply reachable_new.
  - split; [done|]. intros p Hp. by apply elem_of_nil in Hp.
Qed.

Lemma matched_ring_point_count_witness :
  exists r, ring_drawn = Ok r /\ keyCount r = Z.of_nat (points_total r) /\
    keyCount r = 6.
Proof.
  destruct ring_drawn as [r| |] eqn:Hr; [|by vm_compute in Hr..].
  assert (Hall : Forall (matched (node:=string))
            [Add "A"%string (Some 2%nat) None (fun i => 17 * (1 + Z.of_nat i));
             Add "B"%string (Some 3%nat) None (fun i => 100 + 17 * (1 + Z.of_nat i));
             Add "C"%string None None (fun i => 500 + Z.of_nat i)]).
  { repeat constructor. }
  destruct (matched_ring_point_count None _ r Hall Hr) as [Hcount _].
  exists r. split; [reflexivity|]. split; [exact Hcount|].
  vm_compute in Hr. injection Hr as <-. reflexivity.
Defined.

(** X23: on such a ring with at most 2^31 points, [get] returns a node
    for every key as soon as the point count is positive. *)
Theorem matched_ring_coverage {node : Type} `{EqDecision node}
    (range : option Z) (ops : list (op node)) (r : ring node) (name : JS.str) :
  Forall matched ops -> run (ConsistentHash range) ops = Ok r ->
  Z.of_nat (points_total r) <= 2 ^ 31 -> keyCount r > 0 ->
  exists r' nd, get r name = Ok (r', Node nd) /\ exists p, _keyMap r !! Some p = Some nd.
Proof.
  intros Hall Hrun Hsize Hpos.
  destruct (run_matched range ops (ConsistentHash range) r) as [Hcount Hmapped];
    try done.
  { apply reachable_new. }
  { split; [done|]. intros p Hp. by apply elem_of_nil in Hp. }
  pose proof (run_reachable _ _ _ _ (reachable_new _) Hrun) as Hreach.
  destruct (reachable_invariant _ _ Hreach) as (_ & Hfresh & _).
  destruct (get_resolves r name Hfresh Hsize ltac:(lia) ltac:(lia))
    as (v & [Hv _] & Hget).
  destruct (Hmapped v Hv) as [nd Hnd].
  exists (with_index r), nd. split; [|by exists v].
  rewrite Hget. do 2 f_equal. by apply keyMap_get_node.
Qed.

Lemma matched_ring_coverage_witness :
  exists r r' nd, ring_drawn = Ok r /\ get r (of_ascii "key") = Ok (r', Node nd).
Proof.
  destruct ring_drawn as [r| |] eqn:Hr; [|by vm_compute in Hr..].
  assert (Hall : Forall (matched (node:=string))
            [Add "A"%string (Some 2%nat) None (fun i => 17 * (1 + Z.of_nat i));
             Add "B"%string (Some 3%nat) None (fun i => 100 + 17 * (1 + Z.of_nat i));
             Add "C"%string None None (fun i => 500 + Z.of_nat i)]).
  { repeat constructor. }
  pose proof Hr as Hr'. vm_compute in Hr'. injection Hr' as Hr'.
  destruct (matched_ring_coverage None _ r (of_ascii "key") Hall Hr
              ltac:(rewrite <- Hr'; vm_compute; discriminate)
              ltac:(rewrite <- Hr'; reflexivity))
    as (r' & nd & Hget & _).
  exists r, r', nd. split; [reflexivity|exact Hget].
Defined.


